(** * Fairness metrics of [py/metrics.py]

    A shallow embedding of the three metric functions of
    [py/metrics.py] ([calculate_demographic_parity],
    [calculate_equality_of_opportunity], [calculate_predictive_rate_parity])
    and the properties of them that the specification states.

    Modelling choices.
    - A pandas DataFrame is the list of its rows; a row carries the four
      columns the module reads.
    - The caller's DataFrames are Python objects passed by reference: they
      live in a store indexed by references, and the functions receive a
      list of references.
    - Exceptions and console output are effects: a computation maps a state
      (store and console) to a result or an exception and a final state.
    - A Python float is a binary64 number: a finite value (a rational in
      canonical form, [Qc]), an infinity or NaN. Every division and
      subtraction rounds its exact result to the nearest binary64 value,
      ties to even ([round64]). The sign of a zero is not recorded, and
      overflow does not arise: [len] is at most [sys.maxsize], far inside
      the binary64 range.
    - The totals given to [calculate_demographic_parity] are integers, as
      its docstring says: Python ints or NumPy integers (what a pandas or
      NumPy count is). The two differ on division by zero. *)

From Stdlib Require Import QArith Qcanon Qround Qabs Qpower Lqa.
From Stdlib Require Import Floats.SpecFloat.
From stdpp Require Import base numbers list strings gmap sets.

Local Open Scope Z_scope.

(** ** Data model *)

(** One record of a dataset, with the columns read by [metrics.py]. *)
Record Row : Type := mkRow {
  person_id : Z;
  subject_id : Z;
  gender_concept_id : Z;
  cohort_definition_id : Z
}.

#[global] Instance Row_eq_dec : EqDecision Row.
Proof. solve_decision. Defined.

Abbreviation DataFrame := (list Row).

(** References to the caller's DataFrame objects. *)
Definition loc : Type := nat.

(** Exceptions. [NameError], [KeyError] and [ZeroDivisionError] are the
    Python exceptions the statements of the module can raise (the
    specification calls the last one DivisionError). [ShapeError] is the
    specification's name for a length mismatch; no statement of
    [metrics.py] raises it. *)
Inductive exn : Type :=
  | NameError (name : string)
  | KeyError (key : Z)
  | ZeroDivisionError
  | ShapeError.

#[global] Instance exn_eq_dec : EqDecision exn.
Proof. solve_decision. Defined.

Inductive result (A : Type) : Type :=
  | Ok (a : A)
  | Raise (e : exn).
Arguments Ok {A} a.
Arguments Raise {A} e.

(** ** Numbers *)

(** [2 ^ e] for any integer [e]. *)
Definition pow2 (e : Z) : Q := (2 ^ e)%Q.

(** The integer [l] with [2 ^ l <= q < 2 ^ (l + 1)], for [q > 0]. *)
Definition floor_log2 (q : Q) : Z :=
  let l := Z.log2 (Qnum q) - Z.log2 (Zpos (Qden q)) in
  if Qle_bool (pow2 l) q then l else l - 1.

(** The integer nearest to [t], the even one of two at the same distance. *)
Definition rne (t : Q) : Z :=
  let f := Qfloor t in
  match Qcompare (t - inject_Z f) (1 # 2) with
  | Lt => f
  | Gt => f + 1
  | Eq => if Z.even f then f else f + 1
  end.

(** The exponent of the last place of the binary64 values around [q]: 53
    significant bits, and no exponent below that of the subnormals. *)
Definition exponent64 (q : Q) : Z := Z.max (floor_log2 q - 52) (-1074).

Definition round_pos (q : Q) : Q :=
  let e := exponent64 q in (inject_Z (rne (q / pow2 e)) * pow2 e)%Q.

(** The binary64 value nearest to [q], ties to even (IEEE 754
    roundTiesToEven). *)
Definition round64_Q (q : Q) : Q :=
  match Qnum q with
  | Z0 => 0%Q
  | Zpos _ => round_pos q
  | Zneg _ => (- round_pos (- q))%Q
  end.

Definition round64 (q : Qc) : Qc := Q2Qc (round64_Q q).

(** For comparison with the IEEE 754 operations of [SpecFloat]: an integer
    as an (unnormalised) float, and the rational value of a float. *)
Definition Z2SF (z : Z) : spec_float :=
  match z with
  | Z0 => S754_zero false
  | Zpos p => S754_finite false p 0
  | Zneg p => S754_finite true p 0
  end.

Definition SF2Q (f : spec_float) : option Q :=
  match f with
  | S754_zero _ => Some 0%Q
  | S754_finite s m e =>
      Some (Qred ((if s then -1 else 1) * inject_Z (Zpos m) * pow2 e)%Q)
  | S754_infinity _ | S754_nan => None
  end.

(** A Python [float] or [numpy.float64]. *)
Inductive float64 : Type :=
  | Finite (q : Qc)
  | Infinity (negative : bool)
  | NaN.

#[global] Instance float64_eq_dec : EqDecision float64.
Proof. solve_decision. Defined.

(** [x - y] on floats. *)
Definition sub64 (x y : float64) : float64 :=
  match x, y with
  | NaN, _ | _, NaN => NaN
  | Finite a, Finite b => Finite (round64 (a - b))
  | Infinity s, Finite _ => Infinity s
  | Finite _, Infinity s => Infinity (negb s)
  | Infinity s1, Infinity s2 => if bool_decide (s1 = s2) then NaN else Infinity s1
  end.

(** An integer argument: a Python [int], or a NumPy integer such as
    [numpy.int64]. *)
Inductive number : Type :=
  | PyInt (z : Z)
  | NpInt (z : Z).

#[global] Instance number_eq_dec : EqDecision number.
Proof. solve_decision. Defined.

Definition int_value (n : number) : Z :=
  match n with PyInt z | NpInt z => z end.

(** [numpy.true_divide] on two integers: both are converted to binary64
    and divided there; a zero divisor gives an infinity, or NaN for [0 / 0],
    with a RuntimeWarning and no exception. *)
Definition np_true_divide (a b : Z) : float64 :=
  if decide (b = 0) then
    if decide (a = 0) then NaN else Infinity (bool_decide (a < 0))
  else Finite (round64 (round64 (Qc_of_Z a) / round64 (Qc_of_Z b))%Qc).

(** A printed line: [print(label + str(value))]. *)
Record line : Type := mkLine { label : string; value : float64 }.

Record state : Type := mkState {
  frames : loc → DataFrame;
  stdout : list line
}.

(** ** The effect monad: state passing with exceptions *)

Definition M (A : Type) : Type := state → result A * state.

Definition ret {A} (a : A) : M A := λ σ, (Ok a, σ).

Definition raise {A} (e : exn) : M A := λ σ, (Raise e, σ).

Definition bind {A B} (m : M A) (k : A → M B) : M B :=
  λ σ, match m σ with
       | (Ok a, σ') => k a σ'
       | (Raise e, σ') => (Raise e, σ')
       end.

#[global] Instance M_ret : MRet M := @ret.
#[global] Instance M_bind : MBind M := λ A B k m, bind m k.

(** [outcome m σ] is what the call returns or raises, [final m σ] the state
    it leaves. *)
Definition outcome {A} (m : M A) (σ : state) : result A := (m σ).1.
Definition final {A} (m : M A) (σ : state) : state := (m σ).2.

(** [for x in xs: body], the loop's local variables passed as [acc]. *)
Fixpoint for_each {A S} (xs : list A) (body : A → S → M S) (acc : S) : M S :=
  match xs with
  | [] => ret acc
  | x :: xs' => bind (body x acc) (for_each xs' body)
  end.

(** A list comprehension [[f x for x in xs]]. *)
Fixpoint comprehension {A B} (f : A → M B) (xs : list A) : M (list B) :=
  match xs with
  | [] => ret []
  | x :: xs' => bind (f x) (λ y, bind (comprehension f xs') (λ ys, ret (y :: ys)))
  end.

(** ** Primitive operations *)

(** Reading the DataFrame behind a reference. *)
Definition load (df : loc) : M DataFrame := λ σ, (Ok (frames σ df), σ).

(** [print(label + str(v))] appends a line to the console. *)
Definition print (lbl : string) (v : float64) : M unit :=
  λ σ, (Ok (), mkState (frames σ) (stdout σ ++ [mkLine lbl v])).

(** The module's global names: lines 6-7 import [numpy] as [np] and
    [itertools]; the three [def]s bind the function names. Builtins
    ([len], [set], [zip], [int], [str], [print]) are always resolved. *)
Definition module_globals : list string :=
  ["np"; "itertools"; "calculate_demographic_parity";
   "calculate_equality_of_opportunity"; "calculate_predictive_rate_parity"]%string.

(** Looking a global name up at run time. *)
Definition lookup_global (name : string) : M unit :=
  if decide (name ∈ module_globals) then ret () else raise (NameError name).

(** Python's [a / b] on two ints: ZeroDivisionError for a zero divisor,
    else the exact quotient rounded once. *)
Definition true_div (a b : Z) : M float64 :=
  if decide (b = 0) then raise ZeroDivisionError
  else ret (Finite (round64 (Qc_of_Z a / Qc_of_Z b)%Qc)).

(** [a / total] for a Python int [a] (a [len]) and an integer argument:
    Python's division for a Python int, NumPy's for a NumPy integer. *)
Definition true_div_by (a : Z) (total : number) : M float64 :=
  match total with
  | PyInt b => true_div a b
  | NpInt b => ret (np_true_divide a b)
  end.

(** [len(df)]. *)
Definition len {A} (l : list A) : Z := Z.of_nat (length l).

(** [df[df.gender_concept_id == g]]. *)
Definition by_gender (g : Z) (fr : DataFrame) : DataFrame :=
  filter (λ r, gender_concept_id r = g) fr.

(** [df[(df.gender_concept_id == g) & (df.person_id.isin(Y))]]. *)
Definition by_gender_in (g : Z) (Y : gset Z) (fr : DataFrame) : DataFrame :=
  filter (λ r, gender_concept_id r = g ∧ person_id r ∈ Y) fr.

(** ** calculate_demographic_parity (lines 9-36) *)

Definition calculate_demographic_parity
    (list_of_dataframes : list loc) (men_total women_total : number)
    : M (list float64) :=
  for_each list_of_dataframes (λ phenotype diffs,
    fr0 ← load phenotype;
    class_0_prop_outcome ← true_div_by (len (by_gender 8507 fr0)) men_total;
    fr1 ← load phenotype;
    class_1_prop_outcome ← true_div_by (len (by_gender 8532 fr1)) women_total;
    _ ← print "Men: " class_0_prop_outcome;
    _ ← print "Women: " class_1_prop_outcome;
    _ ← print "Diff: " (sub64 class_1_prop_outcome class_0_prop_outcome);
    mret (diffs ++ [sub64 class_1_prop_outcome class_0_prop_outcome])) [].

(** ** The majority-consensus block (lines 56-74, repeated as 109-127) *)

(** [set(df[df.cohort_definition_id == id].subject_id.unique())]. *)
Definition subject_set (fr : DataFrame) (id : Z) : gset Z :=
  list_to_set
    (remove_dups (subject_id <$> filter (λ r, cohort_definition_id r = id) fr)).

(** [np.ceil(num_phenotypes / 2)]. *)
Definition majority_count (num_phenotypes : nat) : Z :=
  Qceiling (Z.of_nat num_phenotypes # 2).

(** [itertools.combinations(l, r)]: the [r]-element subsequences of [l],
    by position, in lexicographic order of positions. *)
Fixpoint combinations {A} (l : list A) (r : nat) : list (list A) :=
  match r, l with
  | O, _ => [[]]
  | S _, [] => []
  | S r', x :: xs => (cons x <$> combinations xs r') ++ combinations xs r
  end.

(** [all_sets[item]]. *)
Definition getitem (all_sets : gmap Z (gset Z)) (item : Z) : M (gset Z) :=
  match all_sets !! item with
  | Some s => ret s
  | None => raise (KeyError item)
  end.

(** Lines 62-64: the loop over [zip(list_of_dataframes, cohort_definition_ids)]
    that fills [all_sets] and [inds]. *)
Definition collect_subject_sets
    (list_of_dataframes : list loc) (cohort_definition_ids : list Z)
    : M (gmap Z (gset Z) * list Z) :=
  for_each (zip list_of_dataframes cohort_definition_ids)
    (λ '(df, cohort_definition_id) '(all_sets, inds),
      fr ← load df;
      mret (<[cohort_definition_id := subject_set fr cohort_definition_id]> all_sets,
            inds ++ [cohort_definition_id]))
    (∅, []).

(** Lines 70-72: the intersection over one combination. *)
Definition coalition_set (all_sets : gmap Z (gset Z)) (ele : list Z) : M (gset Z) :=
  for_each ele (λ item intermediate_set,
    s ← getitem all_sets item;
    mret (intermediate_set ∩ s)) ∅.

(** Lines 56-74: from the arguments to the set [Y]. *)
Definition build_consensus
    (list_of_dataframes : list loc) (cohort_definition_ids : list Z) : M (gset Z) :=
  let num_phenotypes := length list_of_dataframes in
  _ ← lookup_global "np";
  let majority_count := majority_count num_phenotypes in
  '(all_sets, inds) ← collect_subject_sets list_of_dataframes cohort_definition_ids;
  _ ← lookup_global "itertools";
  for_each (combinations inds (Z.to_nat majority_count)) (λ ele Y,
    intermediate_set ← coalition_set all_sets ele;
    mret (Y ∪ intermediate_set)) ∅.

(** ** calculate_equality_of_opportunity (lines 38-92) *)

(** [DataFrame.drop_duplicates()]: the first occurrence of each row stays. *)
Fixpoint drop_duplicates (fr : DataFrame) : DataFrame :=
  match fr with
  | [] => []
  | r :: fr' => r :: filter (λ r', r' ≠ r) (drop_duplicates fr')
  end.

(** Lines 80-92: the rate differences of the datasets against the rows of
    [full_df]. *)
Definition equality_of_opportunity_rates
    (Y : gset Z) (full_df : DataFrame) (list_of_dataframes : list loc)
    : M (list float64) :=
  for_each list_of_dataframes (λ phenotype diffs,
    fr0 ← load phenotype;
    class_0_eqq_opp ← true_div (len (by_gender_in 8507 Y fr0)) (len (by_gender 8507 full_df));
    fr1 ← load phenotype;
    class_1_eqq_opp ← true_div (len (by_gender_in 8532 Y fr1)) (len (by_gender 8532 full_df));
    _ ← print "Men: " class_0_eqq_opp;
    _ ← print "Women: " class_1_eqq_opp;
    _ ← print "Diff: " (sub64 class_1_eqq_opp class_0_eqq_opp);
    mret (diffs ++ [sub64 class_1_eqq_opp class_0_eqq_opp])) [].

Definition calculate_equality_of_opportunity
    (list_of_dataframes : list loc) (cohort_definition_ids : list Z)
    : M (list float64) :=
  Y ← build_consensus list_of_dataframes cohort_definition_ids;
  _ ← lookup_global "pd";
  parts ← comprehension (λ df, fr ← load df; mret (filter (λ r, person_id r ∈ Y) fr))
                        list_of_dataframes;
  let full_df := drop_duplicates (concat parts) in
  equality_of_opportunity_rates Y full_df list_of_dataframes.

(** ** calculate_predictive_rate_parity (lines 94-141) *)

Definition calculate_predictive_rate_parity
    (list_of_dataframes : list loc) (cohort_definition_ids : list Z)
    : M (list float64) :=
  Y ← build_consensus list_of_dataframes cohort_definition_ids;
  for_each list_of_dataframes (λ phenotype diffs,
    fr0 ← load phenotype;
    fr0' ← load phenotype;
    class_0_prp ← true_div (len (by_gender_in 8507 Y fr0)) (len (by_gender 8507 fr0'));
    fr1 ← load phenotype;
    fr1' ← load phenotype;
    class_1_prp ← true_div (len (by_gender_in 8532 Y fr1)) (len (by_gender 8532 fr1'));
    _ ← print "Men: " class_0_prp;
    _ ← print "Women: " class_1_prp;
    _ ← print "Diff: " (sub64 class_1_prp class_0_prp);
    mret (diffs ++ [sub64 class_1_prp class_0_prp])) [].

(** ** The consensus set as the specification words it

    Section 4.1 of the specification: the union, over every [k]-combination
    of the cohort identifiers with [k = ceil(N/2)], of the intersection of
    the [k] cohorts' subject sets. This definition follows the
    specification, not the code; it is what the code is compared with. *)

(** The intersection of a non-empty family starts from its first member;
    an empty family contributes nothing. *)
Definition spec_intersection (sets : list (gset Z)) : gset Z :=
  match sets with
  | [] => ∅
  | s :: rest => foldl (∩) s rest
  end.

Definition spec_consensus (frs : list DataFrame) (cohort_ids : list Z) : gset Z :=
  let subject_sets : gmap Z (gset Z) :=
    list_to_map ((λ '(fr, id), (id, subject_set fr id)) <$> zip frs cohort_ids) in
  let k := Z.to_nat (majority_count (length frs)) in
  ⋃ ((λ ele, spec_intersection (omap (λ id, subject_sets !! id) ele))
       <$> combinations cohort_ids k).

(** ** Scenarios *)

Module Scenario.

(** Section 8 of the specification: three cohorts with subject sets
    {A,B,C}, {B,C,D} and {C,D,E}; the subjects A..E are numbered 1..5.
    Even subjects are men (8507), odd subjects women (8532). *)
Definition subject (id cohort : Z) : Row :=
  mkRow id id (if Z.even id then 8507 else 8532) cohort.

Definition cohort_1 : DataFrame := [subject 1 1; subject 2 1; subject 3 1].
Definition cohort_2 : DataFrame := [subject 2 2; subject 3 2; subject 4 2].
Definition cohort_3 : DataFrame := [subject 3 3; subject 4 3; subject 5 3].

Definition store (l : loc) : DataFrame :=
  match l with
  | 0%nat => cohort_1
  | 1%nat => cohort_2
  | 2%nat => cohort_3
  | _ => []
  end.

Definition initial : state := mkState store [].

(** Section 8, demographic parity: a dataset with 40 rows of class 0 and
    60 rows of class 1. *)
Definition parity_frame : DataFrame :=
  replicate 40 (mkRow 2 2 8507 1) ++ replicate 60 (mkRow 1 1 8532 1).

Definition parity_state : state := mkState (λ _, parity_frame) [].

(** Full overlap: two cohorts with the same two subjects, a woman (1) and
    a man (2), one row each. *)
Definition overlap_1 : DataFrame := [subject 1 1; subject 2 1].
Definition overlap_2 : DataFrame := [subject 1 2; subject 2 2].


Definition overlap_state : state :=
  mkState (λ l, match l with 0%nat => overlap_1 | _ => overlap_2 end) [].

End Scenario.

(** ** Closed forms of the results *)


(** What [a / total] evaluates to when it does not raise. *)
Definition quotient64 (a : Z) (total : number) : float64 :=
  match total with
  | PyInt b => Finite (round64 (Qc_of_Z a / Qc_of_Z b)%Qc)
  | NpInt b => np_true_divide a b
  end.

(** The rate of class [g] as [calculate_demographic_parity] computes it. *)
Definition rate64 (g : Z) (fr : DataFrame) (total : number) : float64 :=
  quotient64 (len (by_gender g fr)) total.

(** The same with the numerator restricted to the persons of [Y]. *)
Definition rate_in (g : Z) (Y : gset Z) (fr : DataFrame) (total : Z) : Qc :=
  (Qc_of_Z (len (by_gender_in g Y fr)) / Qc_of_Z total)%Qc.

(** The rate of class [g] as lines 132-135 compute it: the rows of the
    class with a person in [Y] among the rows of the class, rounded. *)
Definition rate_in64 (g : Z) (Y : gset Z) (fr : DataFrame) : float64 :=
  Finite (round64 (rate_in g Y fr (len (by_gender g fr)))).

(** The dataset has rows of both protected classes. *)
Definition has_both_classes (fr : DataFrame) : Prop :=
  len (by_gender 8507 fr) ≠ 0 ∧ len (by_gender 8532 fr) ≠ 0.

#[global] Instance has_both_classes_dec fr : Decision (has_both_classes fr).
Proof. unfold has_both_classes. apply _. Defined.

(** One turn of the loop of lines 62-64 on the local variables, the
    DataFrames read from the store [F]. *)
Definition collect_step (F : loc → DataFrame)
    (acc : gmap Z (gset Z) * list Z) (pair : loc * Z) : gmap Z (gset Z) * list Z :=
  (<[pair.2 := subject_set (F pair.1) pair.2]> acc.1, acc.2 ++ [pair.2]).

(** * Reasoning about computations *)

(** [returns F m v]: started in any state whose store is [F], the
    computation [m] ends with outcome [v] and leaves the store [F]. *)
Definition returns {A} (F : loc → DataFrame) (m : M A) (v : result A) : Prop :=
  ∀ σ, frames σ = F → outcome m σ = v ∧ frames (final m σ) = F.

(** [emits F m v out]: started in any state whose store is [F], the
    computation [m] ends with outcome [v], leaves the store [F] and has
    appended exactly the lines [out] to the console. *)
Definition emits {A} (F : loc → DataFrame) (m : M A) (v : result A)
    (out : list line) : Prop :=
  ∀ σ, frames σ = F → m σ = (v, mkState F (stdout σ ++ out)).

(** The three lines printed for one dataset (lines 31-33, 87-89, 136-138). *)
Definition report (class_0 class_1 : float64) : list line :=
  [mkLine "Men: " class_0; mkLine "Women: " class_1;
   mkLine "Diff: " (sub64 class_1 class_0)].

(** The rows of the two protected classes. *)
Definition protected_rows (fr : DataFrame) : DataFrame :=
  filter (λ r, gender_concept_id r = 8507 ∨ gender_concept_id r = 8532) fr.

(** * Rounding to binary64 *)

Section binary64.
Local Open Scope Q_scope.


Lemma pow2_pos e : 0 < pow2 e.
Proof. apply Qpower_0_lt. reflexivity. Qed.

Lemma pow2_succ e : pow2 (e + 1) == 2 * pow2 e.
Proof. unfold pow2. rewrite Qpower_plus by discriminate. change (2 ^ 1) with 2. ring. Qed.

Lemma pow2_plus a b : pow2 (a + b) == pow2 a * pow2 b.
Proof. unfold pow2. apply Qpower_plus. discriminate. Qed.

Lemma pow2_le a b : (a <= b)%Z -> pow2 a <= pow2 b.
Proof. intros H. unfold pow2. apply Qpower_le_compat_l; [exact H | discriminate]. Qed.

Lemma pow2_inject (a : Z) : (0 <= a)%Z -> pow2 a == inject_Z (2 ^ a).
Proof. intros H. unfold pow2. rewrite Zpower_Qpower by exact H. reflexivity. Qed.

Lemma floor_log2_spec q :
  0 < q -> pow2 (floor_log2 q) <= q /\ q < pow2 (floor_log2 q + 1).
Proof.
  intros Hq. destruct q as [n d].
  assert (0 < n)%Z as Hn by (unfold Qlt in Hq; simpl in Hq; lia).
  unfold floor_log2. cbn [Qnum Qden].
  set (a := Z.log2 n). set (b := Z.log2 (Zpos d)).
  destruct (Z.log2_spec n Hn) as [Ha1 Ha2]. fold a in Ha1, Ha2.
  destruct (Z.log2_spec (Zpos d) eq_refl) as [Hb1 Hb2]. fold b in Hb1, Hb2.
  assert (0 <= a)%Z as Ha0 by apply Z.log2_nonneg.
  assert (0 <= b)%Z as Hb0 by apply Z.log2_nonneg.
  set (P := pow2 (a - b)).
  assert (0 < P) as HP by apply pow2_pos.
  assert (P * inject_Z (2 ^ b) == inject_Z (2 ^ a)) as HPB.
  { unfold P. rewrite <- !pow2_inject by assumption. rewrite <- pow2_plus.
    replace (a - b + b)%Z with a by lia. reflexivity. }
  set (N := inject_Z n). set (D := inject_Z (Zpos d)).
  set (A := inject_Z (2 ^ a)) in *. set (B := inject_Z (2 ^ b)) in *.
  assert (n # d == N / D) as Hq' by apply Qmake_Qdiv.
  assert (0 < D) as HD by (unfold D, Qlt; simpl; lia).
  assert (A <= N) as HAN by (unfold A, N; rewrite <- Zle_Qle; exact Ha1).
  assert (N < 2 * A) as HNA.
  { unfold A, N. change 2 with (inject_Z 2). rewrite <- inject_Z_mult, <- Zlt_Qlt.
    replace (Z.succ a) with (a + 1)%Z in Ha2 by lia.
    rewrite Z.pow_add_r, Z.pow_1_r in Ha2 by lia. lia. }
  assert (B <= D) as HBD by (unfold B, D; rewrite <- Zle_Qle; exact Hb1).
  assert (D < 2 * B) as HDB.
  { unfold B, D. change 2 with (inject_Z 2). rewrite <- inject_Z_mult, <- Zlt_Qlt.
    replace (Z.succ b) with (b + 1)%Z in Hb2 by lia.
    rewrite Z.pow_add_r, Z.pow_1_r in Hb2 by lia. lia. }
  assert (0 < B) as HB0.
  { unfold B. change 0 with (inject_Z 0). rewrite <- Zlt_Qlt. lia. }
  assert ((n # d) * D == N) as HqD.
  { rewrite Hq'. field. intros H. rewrite H in HD. discriminate. }
  set (q := n # d) in *.
  assert (pow2 (a - b + 1) == 2 * P) as Hup by apply pow2_succ.
  assert (pow2 (a - b - 1) == P / 2) as Hdown.
  { unfold P. replace (a - b)%Z with (a - b - 1 + 1)%Z at 2 by lia.
    rewrite pow2_succ. field. }
  destruct (Qle_bool P q) eqn:E.
  - apply Qle_bool_iff in E. split; [exact E|].
    rewrite Hup. clearbody q N D A B P.
    apply Qnot_le_lt. intros Hc.
    assert (2 * P * B <= q * D) as H1.
    { apply Qle_trans with (2 * P * D).
      - apply Qmult_le_l; [lra|exact HBD].
      - apply Qmult_le_r; [exact HD|exact Hc]. }
    clear Hq' Hup Hdown. lra.
  - assert (q < P) as E'.
    { apply Qnot_le_lt. intros Hc. apply Qle_bool_iff in Hc. congruence. }
    replace (a - b - 1 + 1)%Z with (a - b)%Z by lia. fold P. split; [|exact E'].
    rewrite Hdown. clearbody q N D A B P.
    apply Qnot_lt_le. intros Hc.
    assert (q * D < (P / 2) * D) as H1 by (apply Qmult_lt_r; assumption).
    assert (P / 2 * D == (1 # 2) * (P * D)) as H1' by field.
    rewrite H1' in H1.
    assert (P * D < P * (2 * B)) as H2 by (apply Qmult_lt_l; assumption).
    clear Hq' Hup Hdown Hc H1'. lra.
Qed.

Lemma floor_log2_mono x y : 0 < x -> x <= y -> (floor_log2 x <= floor_log2 y)%Z.
Proof.
  intros Hx Hxy.
  destruct (floor_log2_spec x Hx) as [Hx1 _].
  destruct (floor_log2_spec y) as [_ Hy2]; [lra|].
  destruct (Z_le_gt_dec (floor_log2 x) (floor_log2 y)) as [|Hgt]; [assumption|].
  assert (pow2 (floor_log2 y + 1) <= pow2 (floor_log2 x)) by (apply pow2_le; lia).
  lra.
Qed.

Lemma rne_bounds t : inject_Z (Qfloor t) <= inject_Z (rne t) /\ (Qfloor t <= rne t <= Qfloor t + 1)%Z.
Proof.
  unfold rne. destruct (Qcompare _ _); [destruct (Z.even _)|..];
    split; rewrite <- ?Zle_Qle; lia.
Qed.

Lemma rne_inject (k : Z) : rne (inject_Z k) = k.
Proof.
  unfold rne. rewrite Qfloor_Z.
  destruct (Qcompare_spec (inject_Z k - inject_Z k) (1 # 2)) as [H|H|H]; [lra|reflexivity|lra].
Qed.

Lemma rne_mono s t : s <= t -> (rne s <= rne t)%Z.
Proof.
  intros Hst. pose proof (Qfloor_resp_le s t Hst) as Hf.
  destruct (Z.eq_dec (Qfloor s) (Qfloor t)) as [Heq|Hne].
  - unfold rne. rewrite Heq.
    destruct (Qcompare_spec (s - inject_Z (Qfloor t)) (1 # 2)) as [Hs|Hs|Hs];
      destruct (Qcompare_spec (t - inject_Z (Qfloor t)) (1 # 2)) as [Ht|Ht|Ht];
      try lra; destruct (Z.even (Qfloor t)); lia.
  - destruct (rne_bounds s) as [_ [_ Hs]]. destruct (rne_bounds t) as [_ [Ht _]]. lia.
Qed.

Lemma exponent64_mono x y : 0 < x -> x <= y -> (exponent64 x <= exponent64 y)%Z.
Proof.
  intros Hx Hxy. unfold exponent64. pose proof (floor_log2_mono x y Hx Hxy). lia.
Qed.

Lemma scaled_le x y e : x <= y -> x / pow2 e <= y / pow2 e.
Proof.
  intros H. unfold Qdiv. apply Qmult_le_compat_r; [exact H|].
  apply Qlt_le_weak, Qinv_lt_0_compat, pow2_pos.
Qed.

Lemma round_pos_nonneg q : 0 < q -> 0 <= round_pos q.
Proof.
  intros Hq. unfold round_pos.
  apply Qmult_le_0_compat; [|apply Qlt_le_weak, pow2_pos].
  change 0 with (inject_Z 0). rewrite <- Zle_Qle.
  rewrite <- (rne_inject 0). apply rne_mono.
  apply Qle_shift_div_l; [apply pow2_pos|].
  change (inject_Z 0) with 0. rewrite Qmult_0_l. lra.
Qed.

Lemma round_pos_mono x y : 0 < x -> x <= y -> round_pos x <= round_pos y.
Proof.
  intros Hx Hxy. assert (0 < y) as Hy by lra.
  pose proof (exponent64_mono x y Hx Hxy) as He.
  unfold round_pos.
  set (ex := exponent64 x) in *. set (ey := exponent64 y) in *.
  destruct (Z.eq_dec ex ey) as [Heq|Hne].
  - rewrite Heq. apply Qmult_le_compat_r; [|apply Qlt_le_weak, pow2_pos].
    rewrite <- Zle_Qle. apply rne_mono, scaled_le, Hxy.
  - assert (ex + 1 <= ey)%Z as Hlt by lia.
    assert (ey = floor_log2 y - 52)%Z as Hey by (unfold ey, exponent64 in *; lia).
    assert (floor_log2 x - 52 <= ex)%Z as Hex by (unfold ex, exponent64; lia).
    destruct (floor_log2_spec x Hx) as [_ Hx2].
    destruct (floor_log2_spec y Hy) as [Hy1 _].
    (* the mantissa of x is at most 2^53 *)
    assert (rne (x / pow2 ex) <= 2 ^ 53)%Z as Hmx.
    { rewrite <- (rne_inject (2 ^ 53)). apply rne_mono.
      apply Qle_shift_div_r; [apply pow2_pos|].
      rewrite <- pow2_inject by lia. rewrite <- pow2_plus.
      apply Qle_trans with (pow2 (floor_log2 x + 1)); [lra|]. apply pow2_le. lia. }
    (* the mantissa of y is at least 2^52 *)
    assert (2 ^ 52 <= rne (y / pow2 ey))%Z as Hmy.
    { rewrite <- (rne_inject (2 ^ 52)) at 1. apply rne_mono.
      apply Qle_shift_div_l; [apply pow2_pos|].
      rewrite <- pow2_inject by lia. rewrite <- pow2_plus.
      apply Qle_trans with (pow2 (floor_log2 y)); [|lra]. apply pow2_le. lia. }
    apply Qle_trans with (inject_Z (2 ^ 53) * pow2 ex).
    { apply Qmult_le_compat_r; [|apply Qlt_le_weak, pow2_pos].
      rewrite <- Zle_Qle. exact Hmx. }
    apply Qle_trans with (inject_Z (2 ^ 52) * pow2 ey).
    { rewrite <- !pow2_inject by lia. rewrite <- !pow2_plus. apply pow2_le. lia. }
    apply Qmult_le_compat_r; [|apply Qlt_le_weak, pow2_pos].
    rewrite <- Zle_Qle. exact Hmy.
Qed.

Lemma Qnum_pos q : (exists p, Qnum q = Zpos p) <-> 0 < q.
Proof.
  destruct q as [[|p|p] d]; unfold Qlt; simpl; split; intros H;
    try (destruct H; discriminate); try lia; eauto.
Qed.

Lemma round64_Q_mono x y : x <= y -> round64_Q x <= round64_Q y.
Proof.
  intros Hxy. unfold round64_Q.
  destruct x as [[|px|px] dx] eqn:Ex, y as [[|py|py] dy] eqn:Ey; cbn [Qnum];
    try (exfalso; unfold Qle in Hxy; simpl in Hxy; lia); try lra.
  - apply round_pos_nonneg. reflexivity.
  - apply round_pos_mono; [reflexivity|exact Hxy].
  - assert (0 <= round_pos (- (Z.neg px # dx))) by (apply round_pos_nonneg; reflexivity). lra.
  - assert (0 <= round_pos (- (Z.neg px # dx))) by (apply round_pos_nonneg; reflexivity).
    assert (0 <= round_pos (Z.pos py # dy)) by (apply round_pos_nonneg; reflexivity). lra.
  - assert (round_pos (- (Z.neg py # dy)) <= round_pos (- (Z.neg px # dx))).
    { apply round_pos_mono; [reflexivity|]. lra. }
    lra.
Qed.

Lemma round64_mono (x y : Qc) : (x <= y)%Qc -> (round64 x <= round64 y)%Qc.
Proof.
  unfold Qcle, round64. cbn [this Q2Qc]. rewrite !Qred_correct. apply round64_Q_mono.
Qed.

Lemma round64_0 : round64 0%Qc = 0%Qc.
Proof. reflexivity. Qed.

Lemma round64_1 : round64 1%Qc = 1%Qc.
Proof. apply Qc_is_canon. vm_compute. reflexivity. Qed.

Lemma round64_m1 : round64 (- (1))%Qc = (- (1))%Qc.
Proof. apply Qc_is_canon. vm_compute. reflexivity. Qed.











End binary64.

Section returns.
Context (F : loc → DataFrame).

Lemma returns_ret {A} (a : A) : returns F (ret a) (Ok a).
Proof. by intros σ Hσ. Qed.

Lemma returns_mret {A} (a : A) : returns F (mret a) (Ok a).
Proof. by intros σ Hσ. Qed.

Lemma returns_raise {A} (e : exn) : returns F (raise e) (Raise (A:=A) e).
Proof. by intros σ Hσ. Qed.

Lemma returns_bind {A B} (m : M A) (k : A → M B) a v :
  returns F m (Ok a) → returns F (k a) v → returns F (bind m k) v.
Proof.
  intros Hm Hk σ Hσ. destruct (Hm σ Hσ) as [Ho Hf].
  unfold outcome, final, bind in *.
  destruct (m σ) as [[a'|e] σ']; simpl in *; [|done].
  injection Ho as ->. by apply Hk.
Qed.

Lemma returns_bind_raise {A B} (m : M A) (k : A → M B) e :
  returns F m (Raise e) → returns F (bind m k) (Raise e).
Proof.
  intros Hm σ Hσ. destruct (Hm σ Hσ) as [Ho Hf].
  unfold outcome, final, bind in *.
  destruct (m σ) as [[a'|e'] σ']; simpl in *; [done|].
  by injection Ho as ->.
Qed.

Lemma returns_mbind {A B} (m : M A) (k : A → M B) a v :
  returns F m (Ok a) → returns F (k a) v → returns F (m ≫= k) v.
Proof. apply returns_bind. Qed.

Lemma returns_mbind_raise {A B} (m : M A) (k : A → M B) e :
  returns F m (Raise e) → returns F (m ≫= k) (Raise e).
Proof. apply returns_bind_raise. Qed.

Lemma returns_load df : returns F (load df) (Ok (F df)).
Proof. intros σ <-. done. Qed.

Lemma returns_print lbl v : returns F (print lbl v) (Ok ()).
Proof. by intros σ Hσ. Qed.

Lemma returns_true_div a b :
  b ≠ 0 → returns F (true_div a b) (Ok (Finite (round64 (Qc_of_Z a / Qc_of_Z b)%Qc))).
Proof. intros Hb. unfold true_div. rewrite decide_False by done. apply returns_ret. Qed.

Lemma returns_true_div_zero a b :
  b = 0 → returns F (true_div a b) (Raise ZeroDivisionError).
Proof. intros ->. apply returns_raise. Qed.

Lemma returns_true_div_by a total :
  total ≠ PyInt 0 → returns F (true_div_by a total) (Ok (quotient64 a total)).
Proof.
  intros Ht. destruct total as [b|b]; simpl.
  - apply returns_true_div. by intros ->.
  - apply returns_ret.
Qed.

Lemma returns_true_div_by_zero a :
  returns F (true_div_by a (PyInt 0)) (Raise ZeroDivisionError).
Proof. by apply returns_true_div_zero. Qed.

Lemma returns_lookup_global name :
  name ∈ module_globals → returns F (lookup_global name) (Ok ()).
Proof.
  intros Hin. unfold lookup_global. rewrite decide_True by done. apply returns_ret.
Qed.

Lemma returns_lookup_global_unbound name :
  name ∉ module_globals → returns F (lookup_global name) (Raise (NameError name)).
Proof.
  intros Hin. unfold lookup_global. rewrite decide_False by done. apply returns_raise.
Qed.

Lemma returns_getitem (all_sets : gmap Z (gset Z)) item s :
  all_sets !! item = Some s → returns F (getitem all_sets item) (Ok s).
Proof. intros H. unfold getitem. rewrite H. apply returns_ret. Qed.

Lemma returns_for_each_nil {A S} (body : A → S → M S) acc :
  returns F (for_each [] body acc) (Ok acc).
Proof. apply returns_ret. Qed.

Lemma returns_for_each_cons {A S} (body : A → S → M S) x xs acc acc' v :
  returns F (body x acc) (Ok acc') →
  returns F (for_each xs body acc') v →
  returns F (for_each (x :: xs) body acc) v.
Proof. apply returns_bind. Qed.

Lemma returns_for_each_raise {A S} (body : A → S → M S) x xs acc e :
  returns F (body x acc) (Raise e) →
  returns F (for_each (x :: xs) body acc) (Raise e).
Proof. apply returns_bind_raise. Qed.

(** A loop whose body always succeeds computes a left fold. *)
Lemma returns_for_each_fold {A S} (body : A → S → M S) (f : S → A → S) xs :
  (∀ x acc, x ∈ xs → returns F (body x acc) (Ok (f acc x))) →
  ∀ acc, returns F (for_each xs body acc) (Ok (foldl f acc xs)).
Proof.
  induction xs as [|x xs IH]; intros Hbody acc.
  - apply returns_for_each_nil.
  - eapply returns_for_each_cons.
    + apply Hbody. left.
    + apply IH. intros y acc' Hy. apply Hbody. by right.
Qed.

End returns.

Lemma returns_outcome {A} (m : M A) v σ :
  returns (frames σ) m v → outcome m σ = v.
Proof. intros H. by destruct (H σ eq_refl). Qed.

Lemma returns_final {A} (m : M A) v σ :
  returns (frames σ) m v → frames (final m σ) = frames σ.
Proof. intros H. by destruct (H σ eq_refl). Qed.


Create HintDb returns.
#[global] Hint Resolve returns_ret returns_mret returns_load returns_print
  returns_true_div returns_true_div_by returns_for_each_nil : returns.

(** Steps through a body whose statements succeed. *)
Ltac returns_step :=
  first
    [ eapply returns_mbind; [ solve [ eauto with returns ] | cbn beta iota ]
    | solve [ eauto with returns ] ].

(** * Evaluation on small inputs *)

(** [round64] on known binary64 values: 0.1, 1/3, a tie between two
    integers above 2^53 (to the even one), and half the smallest subnormal
    (to zero). *)
Example round64_tenth :
  this (round64 (Q2Qc (1 # 10))) = (3602879701896397 # 36028797018963968)%Q.
Proof. by vm_compute. Qed.

Example round64_third :
  this (round64 (Q2Qc (1 # 3))) = (6004799503160661 # 18014398509481984)%Q.
Proof. by vm_compute. Qed.

Example round64_ties_to_even :
  this (round64 (Qc_of_Z 9007199254740993)) = inject_Z 9007199254740992
  ∧ this (round64 (Qc_of_Z 9007199254740995)) = inject_Z 9007199254740996.
Proof. by vm_compute. Qed.

Example round64_underflow :
  round64 (Q2Qc (pow2 (-1075))) = 0%Qc
  ∧ this (round64 (Q2Qc (3 * pow2 (-1075)))) = Qred (pow2 (-1073)).
Proof. split; [apply Qc_is_canon|]; by vm_compute. Qed.

(** [round64] agrees with the correctly rounded division and subtraction
    of [SpecFloat] (binary64: precision 53, emax 1024) on the inputs of
    the scenarios. *)
Example round64_agrees_with_SpecFloat :
  SF2Q (SFdiv 53 1024 (Z2SF 60) (Z2SF 200))
  = Some (this (round64 (Qc_of_Z 60 / Qc_of_Z 200)))
  ∧ SF2Q (SFdiv 53 1024 (Z2SF 40) (Z2SF 100))
    = Some (this (round64 (Qc_of_Z 40 / Qc_of_Z 100)))
  ∧ SF2Q (SFsub 53 1024 (SFdiv 53 1024 (Z2SF 60) (Z2SF 200))
                        (SFdiv 53 1024 (Z2SF 40) (Z2SF 100)))
    = Some (this (round64 (round64 (Qc_of_Z 60 / Qc_of_Z 200)
                           - round64 (Qc_of_Z 40 / Qc_of_Z 100))))
  ∧ SF2Q (SFdiv 53 1024 (Z2SF 1) (Z2SF 18014398509481985))
    = Some (this (round64 (Qc_of_Z 1 / Qc_of_Z 18014398509481985)))
  ∧ SFdiv 53 1024 (Z2SF 40) (Z2SF 0) = S754_infinity false
  ∧ SFdiv 53 1024 (Z2SF 0) (Z2SF 0) = S754_nan.
Proof. by vm_compute. Qed.

Example majority_count_values :
  majority_count <$> [0; 1; 2; 3; 4; 5]%nat = [0; 1; 1; 2; 2; 3].
Proof. reflexivity. Qed.

Example combinations_3_2 :
  combinations [1; 2; 3] 2 = [[1; 2]; [1; 3]; [2; 3]].
Proof. reflexivity. Qed.

Example combinations_of_nothing : combinations (@nil Z) 0 = [[]].
Proof. reflexivity. Qed.

Example combinations_too_many : combinations [1; 2] 3 = [].
Proof. reflexivity. Qed.

Example drop_duplicates_keeps_first :
  drop_duplicates [Scenario.subject 1 1; Scenario.subject 2 1; Scenario.subject 1 1]
  = [Scenario.subject 1 1; Scenario.subject 2 1].
Proof. reflexivity. Qed.

(** Each dataset makes [calculate_demographic_parity] print three lines. *)
Example demographic_parity_prints :
  label <$> stdout (final (calculate_demographic_parity [0%nat] (PyInt 100) (PyInt 200))
                          Scenario.parity_state)
  = ["Men: "; "Women: "; "Diff: "]%string.
Proof. reflexivity. Qed.

(** * calculate_demographic_parity *)

(** The loop of lines 28-34 from any value of [diffs]. *)
Lemma demographic_parity_loop F men_total women_total dfs acc :
  returns F
    (for_each dfs (λ phenotype diffs,
       fr0 ← load phenotype;
       class_0_prop_outcome ← true_div_by (len (by_gender 8507 fr0)) men_total;
       fr1 ← load phenotype;
       class_1_prop_outcome ← true_div_by (len (by_gender 8532 fr1)) women_total;
       _ ← print "Men: " class_0_prop_outcome;
       _ ← print "Women: " class_1_prop_outcome;
       _ ← print "Diff: " (sub64 class_1_prop_outcome class_0_prop_outcome);
       mret (diffs ++ [sub64 class_1_prop_outcome class_0_prop_outcome])) acc)
    (if decide (dfs = [] ∨ (men_total ≠ PyInt 0 ∧ women_total ≠ PyInt 0))
     then Ok (acc ++ ((λ df, sub64 (rate64 8532 (F df) women_total)
                                   (rate64 8507 (F df) men_total)) <$> dfs))
     else Raise ZeroDivisionError).
Proof.
  revert acc. induction dfs as [|df dfs IH]; intros acc.
  - rewrite decide_True by auto. rewrite fmap_nil, app_nil_r. apply returns_for_each_nil.
  - destruct (decide (men_total = PyInt 0)) as [->|Hm].
    { rewrite decide_False by (intros [?|[? _]]; done).
      apply returns_for_each_raise.
      returns_step. apply returns_mbind_raise, returns_true_div_by_zero. }
    destruct (decide (women_total = PyInt 0)) as [->|Hw].
    { rewrite decide_False by (intros [?|[_ ?]]; done).
      apply returns_for_each_raise.
      do 3 returns_step. apply returns_mbind_raise, returns_true_div_by_zero. }
    rewrite decide_True by auto.
    eapply returns_for_each_cons.
    + repeat returns_step.
    + specialize (IH (acc ++ [sub64 (rate64 8532 (F df) women_total)
                                    (rate64 8507 (F df) men_total)])).
      rewrite decide_True in IH by auto.
      rewrite <- app_assoc in IH. exact IH.
Qed.

Lemma calculate_demographic_parity_returns F dfs men_total women_total :
  returns F (calculate_demographic_parity dfs men_total women_total)
    (if decide (dfs = [] ∨ (men_total ≠ PyInt 0 ∧ women_total ≠ PyInt 0))
     then Ok ((λ df, sub64 (rate64 8532 (F df) women_total)
                           (rate64 8507 (F df) men_total)) <$> dfs)
     else Raise ZeroDivisionError).
Proof. apply (demographic_parity_loop F men_total women_total dfs []). Qed.

(** * The majority-consensus block *)

Lemma majority_count_half (n : nat) : majority_count n = (Z.of_nat n + 1) `div` 2.
Proof.
  unfold majority_count, Qceiling, Qfloor. simpl.
  Z.div_mod_to_equations. lia.
Qed.

Lemma combinations_elem {A} (l : list A) r ele x :
  ele ∈ combinations l r → x ∈ ele → x ∈ l.
Proof.
  revert r ele. induction l as [|y l IH]; intros [|r] ele Hele Hx; simpl in Hele.
  - apply list_elem_of_singleton in Hele as ->. by apply elem_of_nil in Hx.
  - by apply elem_of_nil in Hele.
  - apply list_elem_of_singleton in Hele as ->. by apply elem_of_nil in Hx.
  - apply elem_of_app in Hele as [Hele|Hele].
    + apply list_elem_of_fmap in Hele as (ele' & -> & Hele').
      apply elem_of_cons in Hx as [->|Hx]; [left|right; eauto].
    + right. eauto.
Qed.

Lemma combinations_length {A} (l : list A) r ele :
  ele ∈ combinations l r → length ele = r.
Proof.
  revert r ele. induction l as [|y l IH]; intros [|r] ele Hele; simpl in Hele.
  - by apply list_elem_of_singleton in Hele as ->.
  - by apply elem_of_nil in Hele.
  - by apply list_elem_of_singleton in Hele as ->.
  - apply elem_of_app in Hele as [Hele|Hele]; [|eauto].
    apply list_elem_of_fmap in Hele as (ele' & -> & Hele'). simpl. f_equal. eauto.
Qed.

Lemma collect_fold_inds F pairs acc :
  (foldl (collect_step F) acc pairs).2 = acc.2 ++ pairs.*2.
Proof.
  revert acc. induction pairs as [|[df id] pairs IH]; intros acc; simpl.
  - by rewrite app_nil_r.
  - rewrite IH. simpl. by rewrite <- app_assoc.
Qed.

Lemma collect_fold_keys F pairs acc :
  (∀ id, id ∈ acc.2 → is_Some (acc.1 !! id)) →
  ∀ id, id ∈ (foldl (collect_step F) acc pairs).2 →
        is_Some ((foldl (collect_step F) acc pairs).1 !! id).
Proof.
  revert acc. induction pairs as [|[df id'] pairs IH]; intros acc Hacc; simpl; [done|].
  apply IH. simpl. intros id [Hid|Hid%list_elem_of_singleton]%elem_of_app.
  - destruct (decide (id' = id)) as [->|Hne].
    + rewrite lookup_insert_eq. eauto.
    + rewrite lookup_insert_ne by done. auto.
  - subst id. rewrite lookup_insert_eq. eauto.
Qed.

Lemma collect_subject_sets_returns F dfs ids :
  returns F (collect_subject_sets dfs ids)
    (Ok (foldl (collect_step F) (∅, []) (zip dfs ids))).
Proof.
  unfold collect_subject_sets.
  apply (returns_for_each_fold F _ (collect_step F)).
  intros [df id] [all_sets inds] _. cbn beta iota.
  repeat returns_step.
Qed.

(** Lines 70-72 never leave the empty set: the intersection starts from
    [set()]. *)
Lemma coalition_set_returns F (all_sets : gmap Z (gset Z)) ele :
  (∀ item, item ∈ ele → is_Some (all_sets !! item)) →
  returns F (coalition_set all_sets ele) (Ok ∅).
Proof.
  unfold coalition_set. induction ele as [|item ele IH]; intros Hkeys.
  - apply returns_for_each_nil.
  - destruct (Hkeys item) as [s Hs]; [left|].
    eapply returns_for_each_cons.
    + eapply returns_mbind; [by apply returns_getitem|].
      rewrite (left_absorb_L ∅ (∩)). apply returns_mret.
    + apply IH. intros item' Hitem'. apply Hkeys. by right.
Qed.

Lemma consensus_loop_returns F (all_sets : gmap Z (gset Z)) combos :
  (∀ ele item, ele ∈ combos → item ∈ ele → is_Some (all_sets !! item)) →
  returns F
    (for_each combos (λ ele Y,
       intermediate_set ← coalition_set all_sets ele;
       mret (Y ∪ intermediate_set)) ∅)
    (Ok ∅).
Proof.
  induction combos as [|ele combos IH]; intros Hkeys.
  - apply returns_for_each_nil.
  - eapply returns_for_each_cons.
    + eapply returns_mbind.
      * apply coalition_set_returns. intros item Hitem. apply (Hkeys ele); [left|done].
      * rewrite (left_id_L ∅ (∪)). apply returns_mret.
    + apply IH. intros ele' item Hele'. apply Hkeys. by right.
Qed.

Lemma build_consensus_returns F dfs ids :
  returns F (build_consensus dfs ids) (Ok ∅).
Proof.
  unfold build_consensus.
  eapply returns_mbind; [apply returns_lookup_global; repeat constructor|].
  eapply returns_mbind; [apply collect_subject_sets_returns|].
  pose proof (collect_fold_keys F (zip dfs ids) (∅, [])) as Hkeys.
  destruct (foldl (collect_step F) (∅, []) (zip dfs ids)) as [all_sets inds].
  cbn beta iota.
  eapply returns_mbind; [apply returns_lookup_global; repeat constructor|].
  apply consensus_loop_returns.
  intros ele item Hele Hitem. apply Hkeys.
  - intros id Hid. by apply elem_of_nil in Hid.
  - simpl. eapply combinations_elem; eauto.
Qed.

(** * calculate_equality_of_opportunity *)

Lemma pd_unbound : "pd"%string ∉ module_globals.
Proof.
  unfold module_globals. intros H.
  repeat (apply elem_of_cons in H as [H|H]; [discriminate H|]).
  by apply elem_of_nil in H.
Qed.

Lemma calculate_equality_of_opportunity_returns F dfs ids :
  returns F (calculate_equality_of_opportunity dfs ids) (Raise (NameError "pd")).
Proof.
  unfold calculate_equality_of_opportunity.
  eapply returns_mbind; [apply build_consensus_returns|].
  apply returns_mbind_raise, returns_lookup_global_unbound, pd_unbound.
Qed.

Lemma equality_of_opportunity_NameError σ dfs ids :
  outcome (calculate_equality_of_opportunity dfs ids) σ = Raise (NameError "pd").
Proof. apply returns_outcome, calculate_equality_of_opportunity_returns. Qed.

(** * calculate_predictive_rate_parity *)

Lemma by_gender_in_empty g fr : by_gender_in g ∅ fr = [].
Proof.
  unfold by_gender_in. induction fr as [|r fr IH]; [done|].
  rewrite filter_cons_False; [done|]. intros [_ H]. by apply not_elem_of_empty in H.
Qed.

Lemma rate_in_empty g fr total : rate_in g ∅ fr total = 0%Qc.
Proof. unfold rate_in. rewrite by_gender_in_empty. apply Qcmult_0_l. Qed.

Lemma rate_in64_empty g fr : rate_in64 g ∅ fr = Finite 0%Qc.
Proof. unfold rate_in64. by rewrite rate_in_empty. Qed.

Lemma sub64_zero : sub64 (Finite 0%Qc) (Finite 0%Qc) = Finite 0%Qc.
Proof. reflexivity. Qed.

(** The loop of lines 131-139 from any value of [diffs], for any set [Y]. *)
Lemma predictive_rate_parity_loop F Y dfs acc :
  returns F
    (for_each dfs (λ phenotype diffs,
       fr0 ← load phenotype;
       fr0' ← load phenotype;
       class_0_prp ← true_div (len (by_gender_in 8507 Y fr0)) (len (by_gender 8507 fr0'));
       fr1 ← load phenotype;
       fr1' ← load phenotype;
       class_1_prp ← true_div (len (by_gender_in 8532 Y fr1)) (len (by_gender 8532 fr1'));
       _ ← print "Men: " class_0_prp;
       _ ← print "Women: " class_1_prp;
       _ ← print "Diff: " (sub64 class_1_prp class_0_prp);
       mret (diffs ++ [sub64 class_1_prp class_0_prp])) acc)
    (if decide (Forall (λ df, has_both_classes (F df)) dfs)
     then Ok (acc ++ ((λ df, sub64 (rate_in64 8532 Y (F df)) (rate_in64 8507 Y (F df)))
                        <$> dfs))
     else Raise ZeroDivisionError).
Proof.
  revert acc. induction dfs as [|df dfs IH]; intros acc.
  - rewrite decide_True by constructor. rewrite fmap_nil, app_nil_r.
    apply returns_for_each_nil.
  - destruct (decide (len (by_gender 8507 (F df)) = 0)) as [Hm|Hm].
    { rewrite decide_False by (intros [[? _] _]%Forall_cons; done).
      apply returns_for_each_raise.
      do 2 returns_step. by apply returns_mbind_raise, returns_true_div_zero. }
    destruct (decide (len (by_gender 8532 (F df)) = 0)) as [Hw|Hw].
    { rewrite decide_False by (intros [[_ ?] _]%Forall_cons; done).
      apply returns_for_each_raise.
      do 5 returns_step. by apply returns_mbind_raise, returns_true_div_zero. }
    eapply returns_for_each_cons; [repeat returns_step|].
    specialize (IH (acc ++ [sub64 (rate_in64 8532 Y (F df)) (rate_in64 8507 Y (F df))])).
    destruct (decide (Forall (λ df, has_both_classes (F df)) dfs)) as [Hall|Hall].
    + rewrite decide_True by (constructor; [split|]; done).
      rewrite <- app_assoc in IH. exact IH.
    + rewrite decide_False by (intros [_ ?]%Forall_cons; done). exact IH.
Qed.

Lemma calculate_predictive_rate_parity_returns F dfs ids :
  returns F (calculate_predictive_rate_parity dfs ids)
    (if decide (Forall (λ df, has_both_classes (F df)) dfs)
     then Ok ((λ _, Finite 0%Qc) <$> dfs)
     else Raise ZeroDivisionError).
Proof.
  unfold calculate_predictive_rate_parity.
  eapply returns_mbind; [apply build_consensus_returns|].
  pose proof (predictive_rate_parity_loop F ∅ dfs []) as Hloop.
  erewrite (list_fmap_ext _ (λ _, Finite 0%Qc)) in Hloop; [exact Hloop|].
  intros i df _. cbn beta. rewrite !rate_in64_empty. apply sub64_zero.
Qed.

(** * The properties of the specification *)

(** C1. On the three-cohort scenario of the specification (subject sets
    {A,B,C}, {B,C,D}, {C,D,E}, numbered 1..5) the union of the pairwise
    intersections is {B,C,D}, and the block of lines 56-74 computes the
    empty set instead. *)
Theorem consensus_scenario_diverges :
  subject_set Scenario.cohort_1 1 = {[1; 2; 3]} ∧
  subject_set Scenario.cohort_2 2 = {[2; 3; 4]} ∧
  subject_set Scenario.cohort_3 3 = {[3; 4; 5]} ∧
  spec_consensus [Scenario.cohort_1; Scenario.cohort_2; Scenario.cohort_3] [1; 2; 3]
    = {[2; 3; 4]} ∧
  outcome (build_consensus [0; 1; 2]%nat [1; 2; 3]) Scenario.initial = Ok ∅.
Proof.
  split_and!; [by apply (bool_decide_unpack _); vm_compute..|].
  apply returns_outcome, build_consensus_returns.
Qed.

(** C2. For every input, the empty dataset list included,
    [calculate_equality_of_opportunity] raises NameError for the name [pd]
    and returns no result. *)
Theorem equality_of_opportunity_raises_NameError σ dfs ids :
  outcome (calculate_equality_of_opportunity dfs ids) σ = Raise (NameError "pd")
  ∧ outcome (calculate_equality_of_opportunity [] []) σ = Raise (NameError "pd").
Proof. split; apply equality_of_opportunity_NameError. Qed.

(** C3. For every input the consensus block ends with [Y] the empty set:
    every coalition's set starts empty and is only intersected, so it stays
    empty; and every numerator restricted to the persons of [Y] is zero. *)
Theorem consensus_always_empty σ dfs ids :
  (∃ Y, outcome (build_consensus dfs ids) σ = Ok Y ∧ Y = ∅ ∧
        ∀ g fr, len (by_gender_in g Y fr) = 0)
  ∧ (∀ (all_sets : gmap Z (gset Z)) ele,
       (∀ item, item ∈ ele → is_Some (all_sets !! item)) →
       outcome (coalition_set all_sets ele) σ = Ok ∅).
Proof.
  split.
  - exists ∅. split; [|split; [done|]].
    + apply returns_outcome, build_consensus_returns.
    + intros g fr. by rewrite by_gender_in_empty.
  - intros all_sets ele Hkeys. by apply returns_outcome, coalition_set_returns.
Qed.

Lemma consensus_always_empty_witness :
  outcome (coalition_set {[1 := {[1; 2; 3]}; 2 := {[2; 3; 4]}]} [1; 2]) Scenario.initial
  = Ok ∅.
Proof.
  apply (consensus_always_empty Scenario.initial [] []).
  intros item Hitem.
  apply elem_of_cons in Hitem as [->|Hitem]; [by eexists|].
  apply elem_of_cons in Hitem as [->|Hitem]; [by eexists|].
  by apply elem_of_nil in Hitem.
Defined.







(** C5, the claim at a concrete input: one dataset with 40 class-0 rows
    and [men_total] a NumPy integer zero. Nothing is raised: the call
    returns the list [[-inf]]. *)
Lemma demographic_parity_zero_total_counterexample :
  [0%nat] ≠ [] ∧ int_value (NpInt 0) = 0
  ∧ outcome (calculate_demographic_parity [0%nat] (NpInt 0) (PyInt 200))
            Scenario.parity_state
    = Ok [Infinity true].
Proof.
  split_and!; [done | done |].
  rewrite (returns_outcome _ _ _ (calculate_demographic_parity_returns _ _ _ _)).
  rewrite decide_True by (right; split; discriminate). reflexivity.
Qed.

Lemma sub64_not_finite x y :
  (∀ q, x ≠ Finite q) ∨ (∀ q, y ≠ Finite q) → ∀ q, sub64 x y ≠ Finite q.
Proof.
  intros [Hx|Hy] q; destruct x as [a|s1|], y as [b|s2|]; simpl;
    try discriminate; try (by destruct (Hx a)); try (by destruct (Hy b));
    by case_bool_decide.
Qed.

Lemma rate64_numpy_zero g fr : ∀ q, rate64 g fr (NpInt 0) ≠ Finite q.
Proof.
  intros q. unfold rate64, quotient64, np_true_divide.
  rewrite decide_True by done. by case_decide.
Qed.

(** C5, amended. On a non-empty dataset list, a zero total that is a
    Python int makes [calculate_demographic_parity] raise
    ZeroDivisionError (the specification's DivisionError). A zero total
    that is a NumPy integer raises nothing: unless the other total is a
    Python-int zero, the call returns one entry per dataset, each of them
    an infinity or NaN. *)
Theorem demographic_parity_zero_total σ dfs men_total women_total :
  dfs ≠ [] →
  (men_total = PyInt 0 ∨ women_total = PyInt 0 →
   outcome (calculate_demographic_parity dfs men_total women_total) σ
   = Raise ZeroDivisionError)
  ∧ (men_total = NpInt 0 ∨ women_total = NpInt 0 →
     men_total ≠ PyInt 0 → women_total ≠ PyInt 0 →
     ∃ r, outcome (calculate_demographic_parity dfs men_total women_total) σ = Ok r
          ∧ length r = length dfs
          ∧ Forall (λ x, ∀ q, x ≠ Finite q) r).
Proof.
  intros Hne.
  rewrite (returns_outcome _ _ σ (calculate_demographic_parity_returns _ _ _ _)).
  split.
  - intros Hzero. apply decide_False. intros [?|[? ?]]; [done|]. destruct Hzero; done.
  - intros Hzero Hm Hw. rewrite decide_True by auto. eexists. split_and!; [done | |].
    + apply length_fmap.
    + apply Forall_fmap, Forall_forall. intros df _ q. revert q.
      apply sub64_not_finite.
      destruct Hzero as [-> | ->]; [right | left]; apply rate64_numpy_zero.
Qed.

Lemma demographic_parity_zero_total_witness :
  outcome (calculate_demographic_parity [0%nat] (PyInt 0) (PyInt 200))
          Scenario.parity_state
  = Raise ZeroDivisionError
  ∧ outcome (calculate_demographic_parity [0%nat] (NpInt 100) (PyInt 0))
            Scenario.parity_state
    = Raise ZeroDivisionError
  ∧ ∃ r, outcome (calculate_demographic_parity [0%nat] (PyInt 100) (NpInt 0))
                 Scenario.parity_state = Ok r
         ∧ length r = 1%nat ∧ Forall (λ x, ∀ q, x ≠ Finite q) r.
Proof.
  split_and!.
  - apply demographic_parity_zero_total; [discriminate | left; reflexivity].
  - apply demographic_parity_zero_total; [discriminate | right; reflexivity].
  - apply (demographic_parity_zero_total Scenario.parity_state [0%nat] (PyInt 100) (NpInt 0));
      [discriminate | right; reflexivity | discriminate | discriminate].
Defined.





(** The pairing of line 62 / 115 stops at the shorter list. *)
Lemma zip_take_min {A B} (l : list A) (k : list B) :
  zip (take (length l `min` length k) l) (take (length l `min` length k) k) = zip l k.
Proof.
  rewrite <- zip_with_take. apply take_ge. rewrite length_zip_with. done.
Qed.

Lemma snd_zip_take {A B} (l : list A) (k : list B) :
  (zip l k).*2 = take (length l `min` length k) k.
Proof.
  rewrite <- zip_take_min. apply snd_zip. rewrite !length_take. lia.
Qed.

(** C7, the claim at a concrete input: one dataset and no cohort
    identifier. No ShapeError is raised:
    [calculate_predictive_rate_parity] returns a list and
    [calculate_equality_of_opportunity] raises NameError. *)
Lemma length_mismatch_counterexample :
  length [0%nat] ≠ length (@nil Z)
  ∧ outcome (calculate_predictive_rate_parity [0%nat] []) Scenario.initial
    = Ok [Finite 0%Qc]
  ∧ outcome (calculate_equality_of_opportunity [0%nat] []) Scenario.initial
      = Raise (NameError "pd")
  ∧ ¬ (outcome (calculate_equality_of_opportunity [0%nat] []) Scenario.initial = Raise ShapeError
       ∧ outcome (calculate_predictive_rate_parity [0%nat] []) Scenario.initial = Raise ShapeError).
Proof.
  assert (Hprp : outcome (calculate_predictive_rate_parity [0%nat] []) Scenario.initial
                 = Ok [Finite 0%Qc]).
  { rewrite (returns_outcome _ _ _ (calculate_predictive_rate_parity_returns _ _ _)).
    apply decide_True. repeat constructor; discriminate. }
  split_and!; [discriminate | exact Hprp | apply equality_of_opportunity_NameError |].
  rewrite Hprp. intros [_ ?]. discriminate.
Qed.

(** C7, amended. When the two lists differ in length no ShapeError is
    raised: lines 62-64 pair the datasets with the identifiers up to the
    shorter of the two lists, and the entries of the longer list beyond
    that are not used. *)
Theorem length_mismatch_truncates σ dfs ids :
  length dfs ≠ length ids →
  let n := (length dfs `min` length ids)%nat in
  (∃ all_sets,
      outcome (collect_subject_sets dfs ids) σ = Ok (all_sets, take n ids)
      ∧ outcome (collect_subject_sets (take n dfs) (take n ids)) σ
        = Ok (all_sets, take n ids))
  ∧ outcome (calculate_equality_of_opportunity dfs ids) σ ≠ Raise ShapeError
  ∧ outcome (calculate_predictive_rate_parity dfs ids) σ ≠ Raise ShapeError.
Proof.
  intros _ n. split_and!.
  - exists (foldl (collect_step (frames σ)) (∅, []) (zip dfs ids)).1.
    rewrite !(returns_outcome _ _ σ (collect_subject_sets_returns _ _ _)).
    unfold n. rewrite zip_take_min.
    pose proof (collect_fold_inds (frames σ) (zip dfs ids) (∅, [])) as Hinds.
    rewrite snd_zip_take in Hinds. simpl in Hinds.
    destruct (foldl _ _ _) as [all_sets inds]. simpl in *. by subst inds.
  - by rewrite equality_of_opportunity_NameError.
  - rewrite (returns_outcome _ _ σ (calculate_predictive_rate_parity_returns _ _ _)).
    by case_decide.
Qed.

Lemma length_mismatch_truncates_witness :
  (∃ all_sets,
      outcome (collect_subject_sets [0; 1; 2]%nat [1; 2]) Scenario.initial
        = Ok (all_sets, [1; 2])
      ∧ outcome (collect_subject_sets [0; 1]%nat [1; 2]) Scenario.initial
        = Ok (all_sets, [1; 2]))
  ∧ outcome (calculate_predictive_rate_parity [0; 1; 2]%nat [1; 2]) Scenario.initial
      ≠ Raise ShapeError.
Proof.
  destruct (length_mismatch_truncates Scenario.initial [0; 1; 2]%nat [1; 2])
    as (Hpairs & _ & Hprp); [simpl; lia|].
  split; [exact Hpairs | exact Hprp].
Defined.

(** C8. On a full-overlap input (two cohorts with the same two subjects,
    no duplicate rows, so that the consensus set of the specification is
    the whole population) the two functions do not return identical lists:
    [calculate_equality_of_opportunity] raises NameError while
    [calculate_predictive_rate_parity] returns [0, 0]. *)
Theorem full_overlap_diverges :
  NoDup Scenario.overlap_1 ∧ NoDup Scenario.overlap_2
  ∧ subject_set Scenario.overlap_1 1 = {[1; 2]}
  ∧ subject_set Scenario.overlap_2 2 = {[1; 2]}
  ∧ spec_consensus [Scenario.overlap_1; Scenario.overlap_2] [1; 2] = {[1; 2]}
  ∧ outcome (calculate_equality_of_opportunity [0; 1]%nat [1; 2]) Scenario.overlap_state
      = Raise (NameError "pd")
  ∧ outcome (calculate_predictive_rate_parity [0; 1]%nat [1; 2]) Scenario.overlap_state
      = Ok [Finite 0%Qc; Finite 0%Qc].
Proof.
  split_and!.
  - by apply (bool_decide_unpack _); vm_compute.
  - by apply (bool_decide_unpack _); vm_compute.
  - by apply (bool_decide_unpack _); vm_compute.
  - by apply (bool_decide_unpack _); vm_compute.
  - by apply (bool_decide_unpack _); vm_compute.
  - apply equality_of_opportunity_NameError.
  - rewrite (returns_outcome _ _ _ (calculate_predictive_rate_parity_returns _ _ _)).
    apply decide_True. repeat constructor; discriminate.
Qed.

(** C9. A permutation applied to the (dataset, cohort identifier) pairs
    does not change the set [Y] that the consensus block computes. *)
Theorem consensus_permutation_invariant σ (pairs pairs' : list (loc * Z)) :
  pairs ≡ₚ pairs' →
  outcome (build_consensus pairs.*1 pairs.*2) σ
  = outcome (build_consensus pairs'.*1 pairs'.*2) σ.
Proof.
  intros _.
  by rewrite !(returns_outcome _ _ σ (build_consensus_returns _ _ _)).
Qed.

Lemma consensus_permutation_invariant_witness :
  outcome (build_consensus [0; 1; 2]%nat [1; 2; 3]) Scenario.initial
  = outcome (build_consensus [2; 0; 1]%nat [3; 1; 2]) Scenario.initial.
Proof.
  apply (consensus_permutation_invariant Scenario.initial
           [(0%nat, 1); (1%nat, 2); (2%nat, 3)] [(2%nat, 3); (0%nat, 1); (1%nat, 2)]).
  symmetry. apply (Permutation_cons_append [(0%nat, 1); (1%nat, 2)] (2%nat, 3)).
Defined.

(** C10. Whatever the input and whether the call returns or raises, the
    caller's DataFrames are the same after the call as before it; only the
    console changes. *)
Theorem datasets_not_mutated σ dfs ids men_total women_total :
  frames (final (calculate_demographic_parity dfs men_total women_total) σ) = frames σ
  ∧ frames (final (calculate_equality_of_opportunity dfs ids) σ) = frames σ
  ∧ frames (final (calculate_predictive_rate_parity dfs ids) σ) = frames σ.
Proof.
  split_and!.
  - eapply returns_final, calculate_demographic_parity_returns.
  - eapply returns_final, calculate_equality_of_opportunity_returns.
  - eapply returns_final, calculate_predictive_rate_parity_returns.
Qed.

(** * Further properties of the code *)

(** ** Console output *)

Section emits.
Context (F : loc → DataFrame).

Lemma emits_ret {A} (a : A) : emits F (ret a) (Ok a) [].
Proof. intros [fr out] Hσ. simpl in *. subst. by rewrite app_nil_r. Qed.

Lemma emits_mret {A} (a : A) : emits F (mret a) (Ok a) [].
Proof. apply emits_ret. Qed.

Lemma emits_raise {A} (e : exn) : emits F (raise e) (Raise (A:=A) e) [].
Proof. intros [fr out] Hσ. simpl in *. subst. unfold raise. by rewrite app_nil_r. Qed.

Lemma emits_bind {A B} (m : M A) (k : A → M B) a v out1 out2 out :
  emits F m (Ok a) out1 → emits F (k a) v out2 → out = out1 ++ out2 →
  emits F (bind m k) v out.
Proof.
  intros Hm Hk -> σ Hσ. unfold bind. rewrite (Hm σ Hσ).
  rewrite (Hk (mkState F (stdout σ ++ out1)) eq_refl). simpl.
  by rewrite app_assoc.
Qed.

Lemma emits_bind_raise {A B} (m : M A) (k : A → M B) e out :
  emits F m (Raise e) out → emits F (bind m k) (Raise e) out.
Proof. intros Hm σ Hσ. unfold bind. by rewrite (Hm σ Hσ). Qed.

Lemma emits_mbind {A B} (m : M A) (k : A → M B) a v out1 out2 out :
  emits F m (Ok a) out1 → emits F (k a) v out2 → out = out1 ++ out2 →
  emits F (m ≫= k) v out.
Proof. apply emits_bind. Qed.

Lemma emits_mbind_raise {A B} (m : M A) (k : A → M B) e out :
  emits F m (Raise e) out → emits F (m ≫= k) (Raise e) out.
Proof. apply emits_bind_raise. Qed.

Lemma emits_load df : emits F (load df) (Ok (F df)) [].
Proof. intros [fr out] Hσ. simpl in *. subst. unfold load. simpl. by rewrite app_nil_r. Qed.

Lemma emits_print lbl v : emits F (print lbl v) (Ok ()) [mkLine lbl v].
Proof. intros σ Hσ. unfold print. by rewrite Hσ. Qed.

Lemma emits_true_div a b :
  b ≠ 0 →
  emits F (true_div a b) (Ok (Finite (round64 (Qc_of_Z a / Qc_of_Z b)%Qc))) [].
Proof. intros Hb. unfold true_div. rewrite decide_False by done. apply emits_ret. Qed.

Lemma emits_true_div_zero a b :
  b = 0 → emits F (true_div a b) (Raise ZeroDivisionError) [].
Proof. intros ->. apply emits_raise. Qed.

Lemma emits_true_div_by a total :
  total ≠ PyInt 0 → emits F (true_div_by a total) (Ok (quotient64 a total)) [].
Proof.
  intros Ht. destruct total as [b|b]; simpl.
  - apply emits_true_div. by intros ->.
  - apply emits_ret.
Qed.

Lemma emits_true_div_by_zero a :
  emits F (true_div_by a (PyInt 0)) (Raise ZeroDivisionError) [].
Proof. by apply emits_true_div_zero. Qed.

Lemma emits_lookup_global name :
  name ∈ module_globals → emits F (lookup_global name) (Ok ()) [].
Proof.
  intros Hin. unfold lookup_global. rewrite decide_True by done. apply emits_ret.
Qed.

Lemma emits_lookup_global_unbound name :
  name ∉ module_globals → emits F (lookup_global name) (Raise (NameError name)) [].
Proof.
  intros Hin. unfold lookup_global. rewrite decide_False by done. apply emits_raise.
Qed.

Lemma emits_getitem (all_sets : gmap Z (gset Z)) item s :
  all_sets !! item = Some s → emits F (getitem all_sets item) (Ok s) [].
Proof. intros H. unfold getitem. rewrite H. apply emits_ret. Qed.

Lemma emits_for_each_nil {A S} (body : A → S → M S) acc :
  emits F (for_each [] body acc) (Ok acc) [].
Proof. apply emits_ret. Qed.

Lemma emits_for_each_cons {A S} (body : A → S → M S) x xs acc acc' v out1 out2 out :
  emits F (body x acc) (Ok acc') out1 →
  emits F (for_each xs body acc') v out2 →
  out = out1 ++ out2 →
  emits F (for_each (x :: xs) body acc) v out.
Proof. apply emits_bind. Qed.

Lemma emits_for_each_raise {A S} (body : A → S → M S) x xs acc e out :
  emits F (body x acc) (Raise e) out →
  emits F (for_each (x :: xs) body acc) (Raise e) out.
Proof. apply emits_bind_raise. Qed.

(** A loop whose body always succeeds silently computes a left fold and
    prints nothing. *)
Lemma emits_for_each_fold {A S} (body : A → S → M S) (f : S → A → S) xs :
  (∀ x acc, x ∈ xs → emits F (body x acc) (Ok (f acc x)) []) →
  ∀ acc, emits F (for_each xs body acc) (Ok (foldl f acc xs)) [].
Proof.
  induction xs as [|x xs IH]; intros Hbody acc.
  - apply emits_for_each_nil.
  - eapply emits_for_each_cons; [apply Hbody; left | | reflexivity].
    apply IH. intros y acc' Hy. apply Hbody. by right.
Qed.

(** Steps that print nothing. *)
Lemma emits_mbind_silent {A B} (m : M A) (k : A → M B) a v out :
  emits F m (Ok a) [] → emits F (k a) v out → emits F (m ≫= k) v out.
Proof. intros Hm Hk. by eapply emits_bind. Qed.

Lemma emits_for_each_cons_silent {A S} (body : A → S → M S) x xs acc acc' v out :
  emits F (body x acc) (Ok acc') [] →
  emits F (for_each xs body acc') v out →
  emits F (for_each (x :: xs) body acc) v out.
Proof. apply emits_mbind_silent. Qed.

End emits.

Lemma emits_run {A} (m : M A) v out σ :
  emits (frames σ) m v out →
  outcome m σ = v ∧ stdout (final m σ) = stdout σ ++ out
  ∧ frames (final m σ) = frames σ.
Proof. intros H. unfold outcome, final. by rewrite (H σ eq_refl). Qed.

Create HintDb emits.
#[global] Hint Resolve emits_ret emits_mret emits_load emits_print
  emits_true_div emits_true_div_by emits_for_each_nil : emits.

(** Runs through a body whose statements succeed, collecting what they
    print. *)
Ltac emits_steps :=
  first
    [ eapply emits_mbind;
      [ solve [ eauto with emits ] | cbn beta iota; emits_steps | reflexivity ]
    | solve [ eauto with emits ] ].

(** ** calculate_demographic_parity: outcome, console, inputs that matter *)

(** X1. [calculate_demographic_parity] raises exactly when the dataset
    list is non-empty and a total is a Python-int zero, and what it raises
    is then ZeroDivisionError; in every other case (the empty list, totals
    that are non-zero or negative, NumPy zeros) it returns one entry per
    dataset, [] for the empty list. *)
Theorem demographic_parity_returns_iff σ dfs men_total women_total :
  ((∃ r, outcome (calculate_demographic_parity dfs men_total women_total) σ = Ok r)
   ↔ dfs = [] ∨ (men_total ≠ PyInt 0 ∧ women_total ≠ PyInt 0))
  ∧ (∀ r, outcome (calculate_demographic_parity dfs men_total women_total) σ = Ok r →
          length r = length dfs)
  ∧ outcome (calculate_demographic_parity [] men_total women_total) σ = Ok []
  ∧ (∀ e, outcome (calculate_demographic_parity dfs men_total women_total) σ = Raise e →
          e = ZeroDivisionError).
Proof.
  rewrite !(returns_outcome _ _ σ (calculate_demographic_parity_returns _ _ _ _)).
  split_and!.
  - case_decide; split; try done; [by eexists | by intros [r ?]].
  - intros r. case_decide; [|done]. intros [= <-]. apply length_fmap.
  - done.
  - intros e. case_decide; by intros [= <-].
Qed.

Lemma demographic_parity_returns_iff_witness :
  (∃ r, outcome (calculate_demographic_parity [0%nat] (PyInt (-100)) (NpInt 0))
                Scenario.parity_state = Ok r)
  ∧ ∀ r, outcome (calculate_demographic_parity [0%nat] (PyInt 100) (PyInt 200))
                 Scenario.parity_state = Ok r → length r = 1%nat.
Proof.
  split.
  - apply (demographic_parity_returns_iff Scenario.parity_state [0%nat]
             (PyInt (-100)) (NpInt 0)).
    right. split; discriminate.
  - apply (demographic_parity_returns_iff Scenario.parity_state [0%nat]
             (PyInt 100) (PyInt 200)).
Defined.

Lemma demographic_parity_loop_emits F men_total women_total dfs acc :
  men_total ≠ PyInt 0 → women_total ≠ PyInt 0 →
  emits F
    (for_each dfs (λ phenotype diffs,
       fr0 ← load phenotype;
       class_0_prop_outcome ← true_div_by (len (by_gender 8507 fr0)) men_total;
       fr1 ← load phenotype;
       class_1_prop_outcome ← true_div_by (len (by_gender 8532 fr1)) women_total;
       _ ← print "Men: " class_0_prop_outcome;
       _ ← print "Women: " class_1_prop_outcome;
       _ ← print "Diff: " (sub64 class_1_prop_outcome class_0_prop_outcome);
       mret (diffs ++ [sub64 class_1_prop_outcome class_0_prop_outcome])) acc)
    (Ok (acc ++ ((λ df, sub64 (rate64 8532 (F df) women_total)
                              (rate64 8507 (F df) men_total)) <$> dfs)))
    (concat ((λ df, report (rate64 8507 (F df) men_total) (rate64 8532 (F df) women_total))
               <$> dfs)).
Proof.
  intros Hm Hw. revert acc. induction dfs as [|df dfs IH]; intros acc.
  - rewrite !fmap_nil, app_nil_r. apply emits_for_each_nil.
  - eapply emits_for_each_cons; [emits_steps | | reflexivity].
    specialize (IH (acc ++ [sub64 (rate64 8532 (F df) women_total)
                                  (rate64 8507 (F df) men_total)])).
    rewrite <- app_assoc in IH. exact IH.
Qed.

Lemma calculate_demographic_parity_emits F men_total women_total dfs :
  men_total ≠ PyInt 0 → women_total ≠ PyInt 0 →
  emits F (calculate_demographic_parity dfs men_total women_total)
    (Ok ((λ df, sub64 (rate64 8532 (F df) women_total)
                      (rate64 8507 (F df) men_total)) <$> dfs))
    (concat ((λ df, report (rate64 8507 (F df) men_total) (rate64 8532 (F df) women_total))
               <$> dfs)).
Proof. apply (demographic_parity_loop_emits F men_total women_total dfs []). Qed.

Lemma demographic_parity_zero_emits F men_total women_total dfs :
  men_total = PyInt 0 ∨ women_total = PyInt 0 →
  ∃ v, emits F (calculate_demographic_parity dfs men_total women_total) v [].
Proof.
  intros Hzero. unfold calculate_demographic_parity. destruct dfs as [|df dfs].
  { eexists. apply emits_for_each_nil. }
  exists (Raise ZeroDivisionError). apply emits_for_each_raise.
  eapply emits_mbind_silent; [apply emits_load | cbn beta].
  destruct (decide (men_total = PyInt 0)) as [->|Hm].
  { apply emits_mbind_raise, emits_true_div_by_zero. }
  destruct Hzero as [? | ->]; [done|].
  eapply emits_mbind_silent; [by apply emits_true_div_by | cbn beta].
  eapply emits_mbind_silent; [apply emits_load | cbn beta].
  apply emits_mbind_raise, emits_true_div_by_zero.
Qed.

(** X2. What [calculate_demographic_parity] prints. When no total is a
    Python-int zero: three lines per dataset, in the order of the list,
    the computed class-0 rate under "Men: ", the computed class-1 rate
    under "Women: " and the returned entry under "Diff: "; with a NumPy
    zero total these are infinities or NaN. When a total is a Python-int
    zero it prints nothing at all: the exception comes before the first
    print. *)
Theorem demographic_parity_console σ dfs men_total women_total :
  (men_total ≠ PyInt 0 → women_total ≠ PyInt 0 →
   stdout (final (calculate_demographic_parity dfs men_total women_total) σ)
   = stdout σ ++ concat ((λ df, report (rate64 8507 (frames σ df) men_total)
                                       (rate64 8532 (frames σ df) women_total)) <$> dfs))
  ∧ (men_total = PyInt 0 ∨ women_total = PyInt 0 →
     stdout (final (calculate_demographic_parity dfs men_total women_total) σ) = stdout σ)
  ∧ (∀ fr, len (by_gender 8507 fr) ≠ 0 →
           report (rate64 8507 fr (NpInt 0)) (rate64 8532 fr women_total)
           = [mkLine "Men: " (Infinity false);
              mkLine "Women: " (rate64 8532 fr women_total);
              mkLine "Diff: " (sub64 (rate64 8532 fr women_total) (Infinity false))]).
Proof.
  split_and!.
  - intros Hm Hw.
    by destruct (emits_run _ _ _ σ
      (calculate_demographic_parity_emits (frames σ) men_total women_total dfs Hm Hw))
      as (_ & -> & _).
  - intros Hzero.
    destruct (demographic_parity_zero_emits (frames σ) men_total women_total dfs Hzero)
      as [v Hv].
    destruct (emits_run _ _ _ σ Hv) as (_ & -> & _). by rewrite app_nil_r.
  - intros fr Hlen.
    assert (rate64 8507 fr (NpInt 0) = Infinity false) as Hinf.
    { unfold rate64, quotient64, np_true_divide.
      rewrite decide_True by done. rewrite decide_False by done.
      by rewrite bool_decide_eq_false_2 by (unfold len; lia). }
    unfold report. by rewrite Hinf.
Qed.

Lemma demographic_parity_console_witness :
  stdout (final (calculate_demographic_parity [0%nat] (PyInt 100) (PyInt 200))
                Scenario.parity_state)
  = report (rate64 8507 Scenario.parity_frame (PyInt 100))
           (rate64 8532 Scenario.parity_frame (PyInt 200))
  ∧ stdout (final (calculate_demographic_parity [0%nat] (PyInt 0) (PyInt 200))
                  Scenario.parity_state) = []
  ∧ label <$> stdout (final (calculate_demographic_parity [0%nat] (NpInt 0) (PyInt 200))
                            Scenario.parity_state)
    = ["Men: "; "Women: "; "Diff: "]%string.
Proof.
  destruct (demographic_parity_console Scenario.parity_state [0%nat]
              (PyInt 100) (PyInt 200)) as (Hok & _ & _).
  destruct (demographic_parity_console Scenario.parity_state [0%nat]
              (PyInt 0) (PyInt 200)) as (_ & Hzero & _).
  destruct (demographic_parity_console Scenario.parity_state [0%nat]
              (NpInt 0) (PyInt 200)) as (Hnp & _ & _).
  split_and!.
  - rewrite Hok; [reflexivity | discriminate | discriminate].
  - rewrite Hzero; [reflexivity | left; reflexivity].
  - rewrite Hnp; [reflexivity | discriminate | discriminate].
Defined.

Lemma by_gender_Permutation g fr fr' :
  fr ≡ₚ fr' → len (by_gender g fr) = len (by_gender g fr').
Proof. intros H. unfold len, by_gender. by rewrite H. Qed.

Lemma by_gender_protected_rows g fr :
  g = 8507 ∨ g = 8532 → by_gender g (protected_rows fr) = by_gender g fr.
Proof.
  intros Hg. unfold by_gender, protected_rows. rewrite list_filter_filter.
  apply list_filter_iff. intros r. split; [by intros [? _]|].
  intros <-. split; [done|]. destruct Hg; auto.
Qed.

(** The two functions that return read nothing of a dataset but its two
    class counts. *)
Lemma outcomes_from_counts σ σ' dfs ids men_total women_total :
  (∀ df, df ∈ dfs →
     len (by_gender 8507 (frames σ' df)) = len (by_gender 8507 (frames σ df))
     ∧ len (by_gender 8532 (frames σ' df)) = len (by_gender 8532 (frames σ df))) →
  outcome (calculate_demographic_parity dfs men_total women_total) σ'
  = outcome (calculate_demographic_parity dfs men_total women_total) σ
  ∧ outcome (calculate_predictive_rate_parity dfs ids) σ'
    = outcome (calculate_predictive_rate_parity dfs ids) σ.
Proof.
  intros Hcounts. split.
  - rewrite !(returns_outcome _ _ _ (calculate_demographic_parity_returns _ _ _ _)).
    case_decide; [|done]. f_equal. apply list_fmap_ext. intros i df Hi.
    destruct (Hcounts df) as [H0 H1]; [by eapply list_elem_of_lookup_2|].
    unfold rate64. by rewrite H0, H1.
  - rewrite !(returns_outcome _ _ _ (calculate_predictive_rate_parity_returns _ _ _)).
    assert (Forall (λ df, has_both_classes (frames σ' df)) dfs
            ↔ Forall (λ df, has_both_classes (frames σ df)) dfs) as Hiff.
    { rewrite !Forall_forall. unfold has_both_classes.
      split; intros H df Hdf; destruct (Hcounts df Hdf) as [H0 H1];
        specialize (H df Hdf); [by rewrite <- H0, <- H1 | by rewrite H0, H1]. }
    do 2 case_decide; try done; by exfalso; tauto.
Qed.

(** X3. The order of the rows inside a dataset does not matter: after any
    reordering of the rows of every dataset,
    [calculate_demographic_parity] and [calculate_predictive_rate_parity]
    return (or raise) the same. *)
Theorem row_order_irrelevant σ σ' dfs ids men_total women_total :
  (∀ df, df ∈ dfs → frames σ' df ≡ₚ frames σ df) →
  outcome (calculate_demographic_parity dfs men_total women_total) σ'
  = outcome (calculate_demographic_parity dfs men_total women_total) σ
  ∧ outcome (calculate_predictive_rate_parity dfs ids) σ'
    = outcome (calculate_predictive_rate_parity dfs ids) σ.
Proof.
  intros Hperm. apply outcomes_from_counts. intros df Hdf.
  split; by apply by_gender_Permutation, Hperm.
Qed.

Lemma row_order_irrelevant_witness :
  outcome (calculate_demographic_parity [0%nat] (PyInt 100) (PyInt 200))
          (mkState (λ _, reverse Scenario.cohort_1) [])
  = outcome (calculate_demographic_parity [0%nat] (PyInt 100) (PyInt 200))
            (mkState (λ _, Scenario.cohort_1) []).
Proof.
  apply (row_order_irrelevant (mkState (λ _, Scenario.cohort_1) [])
           (mkState (λ _, reverse Scenario.cohort_1) []) [0%nat] [1] (PyInt 100) (PyInt 200)).
  intros df _. simpl. apply reverse_Permutation.
Defined.

(** X4. Rows whose [gender_concept_id] is neither 8507 nor 8532 are
    ignored: dropping them from every dataset changes neither what
    [calculate_demographic_parity] nor what
    [calculate_predictive_rate_parity] returns or raises. *)
Theorem other_genders_ignored σ σ' dfs ids men_total women_total :
  (∀ df, df ∈ dfs → frames σ' df = protected_rows (frames σ df)) →
  outcome (calculate_demographic_parity dfs men_total women_total) σ'
  = outcome (calculate_demographic_parity dfs men_total women_total) σ
  ∧ outcome (calculate_predictive_rate_parity dfs ids) σ'
    = outcome (calculate_predictive_rate_parity dfs ids) σ.
Proof.
  intros Hrows. apply outcomes_from_counts. intros df Hdf.
  rewrite (Hrows df Hdf), !by_gender_protected_rows; auto.
Qed.

Lemma other_genders_ignored_witness :
  outcome (calculate_demographic_parity [0%nat] (PyInt 100) (PyInt 200))
          (mkState (λ _, protected_rows (mkRow 9 9 0 1 :: Scenario.cohort_1)) [])
  = outcome (calculate_demographic_parity [0%nat] (PyInt 100) (PyInt 200))
            (mkState (λ _, mkRow 9 9 0 1 :: Scenario.cohort_1) []).
Proof.
  apply (other_genders_ignored (mkState (λ _, mkRow 9 9 0 1 :: Scenario.cohort_1) [])
           (mkState (λ _, protected_rows (mkRow 9 9 0 1 :: Scenario.cohort_1)) [])
           [0%nat] [1] (PyInt 100) (PyInt 200)).
  intros df _. reflexivity.
Defined.

Lemma Qc_quotient_unit (x y : Qc) :
  (0 ≤ x)%Qc → (x ≤ y)%Qc → (0 < y)%Qc → (0 ≤ x / y)%Qc ∧ (x / y ≤ 1)%Qc.
Proof.
  unfold Qcle, Qclt, Qcdiv, Qcmult, Qcinv. cbn [this Q2Qc].
  rewrite !Qred_correct.
  change (this 0%Qc) with 0%Q. change (this 1%Qc) with 1%Q.
  intros Hx Hxy Hy. split.
  - apply Qle_shift_div_l; [done|]. by rewrite Qmult_0_l.
  - apply Qle_shift_div_r; [done|]. by rewrite Qmult_1_l.
Qed.

Lemma Qc_of_Z_le (a b : Z) : a ≤ b → (Qc_of_Z a ≤ Qc_of_Z b)%Qc.
Proof. intros H. unfold Qcle. simpl. by rewrite <- Zle_Qle. Qed.

Lemma Qc_lt_0_1 : (0 < 1)%Qc.
Proof. reflexivity. Qed.

(** A binary64 rate: between 0 and 1 when the count is at most the
    total. *)
Lemma rate64_unit g fr total :
  0 < int_value total → len (by_gender g fr) ≤ int_value total →
  ∃ q, rate64 g fr total = Finite q ∧ (0 ≤ q)%Qc ∧ (q ≤ 1)%Qc.
Proof.
  intros Ht Hlen. set (a := len (by_gender g fr)) in *.
  assert (0 ≤ a) as Ha by (unfold a, len; lia).
  assert (round64 1 ≤ round64 (Qc_of_Z (int_value total)))%Qc as H1.
  { apply round64_mono. apply (Qc_of_Z_le 1). lia. }
  rewrite round64_1 in H1.
  assert (0 ≤ round64 (Qc_of_Z a))%Qc as H2.
  { rewrite <- round64_0. apply round64_mono. by apply (Qc_of_Z_le 0). }
  assert (round64 (Qc_of_Z a) ≤ round64 (Qc_of_Z (int_value total)))%Qc as H3.
  { by apply round64_mono, Qc_of_Z_le. }
  assert (∀ x y : Qc, (0 ≤ x)%Qc → (x ≤ y)%Qc → (0 < y)%Qc →
            (0 ≤ round64 (x / y))%Qc ∧ (round64 (x / y) ≤ 1)%Qc) as Hunit.
  { intros x y Hx Hxy Hy. destruct (Qc_quotient_unit x y Hx Hxy Hy) as [Hq0 Hq1].
    split.
    - rewrite <- round64_0. by apply round64_mono.
    - rewrite <- round64_1. by apply round64_mono. }
  unfold rate64, quotient64. fold a. destruct total as [b|b]; simpl in *.
  - eexists. split; [done|]. apply Hunit.
    + by apply (Qc_of_Z_le 0).
    + by apply Qc_of_Z_le.
    + apply Qclt_le_trans with 1%Qc; [apply Qc_lt_0_1|]. apply (Qc_of_Z_le 1). lia.
  - unfold np_true_divide. rewrite decide_False by lia.
    eexists. split; [done|]. apply Hunit; [done | done |].
    apply Qclt_le_trans with 1%Qc; [apply Qc_lt_0_1 | done].
Qed.

Lemma sub64_unit (x y : Qc) :
  (0 ≤ x)%Qc → (x ≤ 1)%Qc → (0 ≤ y)%Qc → (y ≤ 1)%Qc →
  (- (1) ≤ round64 (x - y))%Qc ∧ (round64 (x - y) ≤ 1)%Qc.
Proof.
  intros Hx0 Hx1 Hy0 Hy1.
  assert ((- (1) ≤ x - y)%Qc ∧ (x - y ≤ 1)%Qc) as [Hlo Hhi].
  { revert Hx0 Hx1 Hy0 Hy1.
    unfold Qcle, Qcminus, Qcplus, Qcopp. cbn [this Q2Qc]. rewrite !Qred_correct.
    change (this 0%Qc) with 0%Q. change (this 1%Qc) with 1%Q.
    intros. split; lra. }
  split.
  - rewrite <- round64_m1. by apply round64_mono.
  - rewrite <- round64_1. by apply round64_mono.
Qed.

(** X5. When the totals are positive and no dataset has more rows of a
    class than the total given for that class,
    [calculate_demographic_parity] returns a list whose entries are all
    finite and lie between -1 and 1. *)
Theorem demographic_parity_bounded σ dfs men_total women_total :
  0 < int_value men_total → 0 < int_value women_total →
  (∀ df, df ∈ dfs →
     len (by_gender 8507 (frames σ df)) ≤ int_value men_total
     ∧ len (by_gender 8532 (frames σ df)) ≤ int_value women_total) →
  ∃ r, outcome (calculate_demographic_parity dfs men_total women_total) σ = Ok r
       ∧ Forall (λ x, ∃ q, x = Finite q ∧ (- (1) ≤ q)%Qc ∧ (q ≤ 1)%Qc) r.
Proof.
  intros Hm Hw Hcounts. eexists. split.
  - rewrite (returns_outcome _ _ σ (calculate_demographic_parity_returns _ _ _ _)).
    apply decide_True. right. split; intros ->; simpl in *; lia.
  - apply Forall_fmap, Forall_forall. intros df Hdf. simpl.
    destruct (Hcounts df Hdf) as [H0 H1].
    destruct (rate64_unit 8507 (frames σ df) men_total Hm H0) as (q0 & -> & ? & ?).
    destruct (rate64_unit 8532 (frames σ df) women_total Hw H1) as (q1 & -> & ? & ?).
    eexists. split; [done|]. by apply sub64_unit.
Qed.

Lemma demographic_parity_bounded_witness :
  ∃ r, outcome (calculate_demographic_parity [0%nat] (PyInt 100) (NpInt 200))
               Scenario.parity_state = Ok r
       ∧ Forall (λ x, ∃ q, x = Finite q ∧ (- (1) ≤ q)%Qc ∧ (q ≤ 1)%Qc) r.
Proof.
  apply (demographic_parity_bounded Scenario.parity_state [0%nat] (PyInt 100) (NpInt 200));
    [simpl; lia | simpl; lia |].
  intros df _. split; vm_compute; discriminate.
Defined.

(** X6. Results compose along the list: on a concatenated dataset list
    [calculate_demographic_parity] returns the concatenation of what it
    returns on the two parts, and raises if it raises on one of them; the
    entry of a dataset does not depend on the other datasets. *)
Theorem demographic_parity_app σ dfs1 dfs2 men_total women_total :
  outcome (calculate_demographic_parity (dfs1 ++ dfs2) men_total women_total) σ
  = match outcome (calculate_demographic_parity dfs1 men_total women_total) σ,
          outcome (calculate_demographic_parity dfs2 men_total women_total) σ with
    | Ok r1, Ok r2 => Ok (r1 ++ r2)
    | _, _ => Raise ZeroDivisionError
    end.
Proof.
  rewrite !(returns_outcome _ _ σ (calculate_demographic_parity_returns _ _ _ _)).
  destruct (decide (men_total ≠ PyInt 0 ∧ women_total ≠ PyInt 0)) as [Hnz|Hz].
  { rewrite !decide_True by auto. by rewrite fmap_app. }
  destruct dfs1 as [|d1 dfs1]; [destruct dfs2 as [|d2 dfs2]|].
  - rewrite !decide_True by auto. done.
  - rewrite (decide_True (P := [] = [] ∨ _)) by auto.
    rewrite !decide_False by (intros [?|?]; done). done.
  - rewrite !decide_False by (intros [?|?]; done). done.
Qed.

(** ** The consensus block and the two functions built on it: console *)

Lemma collect_subject_sets_emits F dfs ids :
  emits F (collect_subject_sets dfs ids)
    (Ok (foldl (collect_step F) (∅, []) (zip dfs ids))) [].
Proof.
  unfold collect_subject_sets.
  apply (emits_for_each_fold F _ (collect_step F)).
  intros [df id] [all_sets inds] _. cbn beta iota. emits_steps.
Qed.

Lemma coalition_set_emits F (all_sets : gmap Z (gset Z)) ele :
  (∀ item, item ∈ ele → is_Some (all_sets !! item)) →
  emits F (coalition_set all_sets ele) (Ok ∅) [].
Proof.
  unfold coalition_set. induction ele as [|item ele IH]; intros Hkeys.
  - apply emits_for_each_nil.
  - destruct (Hkeys item) as [s Hs]; [left|].
    eapply emits_for_each_cons_silent.
    + eapply emits_mbind_silent; [by apply emits_getitem|].
      rewrite (left_absorb_L ∅ (∩)). apply emits_mret.
    + apply IH. intros item' Hitem'. apply Hkeys. by right.
Qed.

Lemma consensus_loop_emits F (all_sets : gmap Z (gset Z)) combos :
  (∀ ele item, ele ∈ combos → item ∈ ele → is_Some (all_sets !! item)) →
  emits F
    (for_each combos (λ ele Y,
       intermediate_set ← coalition_set all_sets ele;
       mret (Y ∪ intermediate_set)) ∅)
    (Ok ∅) [].
Proof.
  induction combos as [|ele combos IH]; intros Hkeys.
  - apply emits_for_each_nil.
  - eapply emits_for_each_cons_silent.
    + eapply emits_mbind_silent.
      * apply coalition_set_emits. intros item Hitem. apply (Hkeys ele); [left|done].
      * rewrite (left_id_L ∅ (∪)). apply emits_mret.
    + apply IH. intros ele' item Hele'. apply Hkeys. by right.
Qed.

Lemma build_consensus_emits F dfs ids :
  emits F (build_consensus dfs ids) (Ok ∅) [].
Proof.
  unfold build_consensus.
  eapply emits_mbind_silent; [apply emits_lookup_global; repeat constructor|].
  eapply emits_mbind_silent; [apply collect_subject_sets_emits|].
  pose proof (collect_fold_keys F (zip dfs ids) (∅, [])) as Hkeys.
  destruct (foldl (collect_step F) (∅, []) (zip dfs ids)) as [all_sets inds].
  cbn beta iota.
  eapply emits_mbind_silent; [apply emits_lookup_global; repeat constructor|].
  apply consensus_loop_emits.
  intros ele item Hele Hitem. apply Hkeys.
  - intros id Hid. by apply elem_of_nil in Hid.
  - simpl. eapply combinations_elem; eauto.
Qed.

(** X7. [calculate_equality_of_opportunity] has no effect besides the
    exception: it raises NameError before anything is printed, and the
    state after the call is the state before it. *)
Theorem equality_of_opportunity_no_effect σ dfs ids :
  calculate_equality_of_opportunity dfs ids σ = (Raise (NameError "pd"), σ).
Proof.
  assert (emits (frames σ) (calculate_equality_of_opportunity dfs ids)
            (Raise (NameError "pd")) []) as H.
  { unfold calculate_equality_of_opportunity.
    eapply emits_mbind_silent; [apply build_consensus_emits|].
    apply emits_mbind_raise, emits_lookup_global_unbound, pd_unbound. }
  rewrite (H σ eq_refl). destruct σ. simpl. by rewrite app_nil_r.
Qed.

(** The loop of lines 131-139 on datasets that all have both classes. *)
Lemma predictive_rate_parity_loop_emits F Y dfs acc :
  Forall (λ df, has_both_classes (F df)) dfs →
  emits F
    (for_each dfs (λ phenotype diffs,
       fr0 ← load phenotype;
       fr0' ← load phenotype;
       class_0_prp ← true_div (len (by_gender_in 8507 Y fr0)) (len (by_gender 8507 fr0'));
       fr1 ← load phenotype;
       fr1' ← load phenotype;
       class_1_prp ← true_div (len (by_gender_in 8532 Y fr1)) (len (by_gender 8532 fr1'));
       _ ← print "Men: " class_0_prp;
       _ ← print "Women: " class_1_prp;
       _ ← print "Diff: " (sub64 class_1_prp class_0_prp);
       mret (diffs ++ [sub64 class_1_prp class_0_prp])) acc)
    (Ok (acc ++ ((λ df, sub64 (rate_in64 8532 Y (F df)) (rate_in64 8507 Y (F df)))
                   <$> dfs)))
    (concat ((λ df, report (rate_in64 8507 Y (F df)) (rate_in64 8532 Y (F df)))
               <$> dfs)).
Proof.
  intros Hall. revert acc. induction Hall as [|df dfs [Hm Hw] Hall IH]; intros acc.
  - rewrite !fmap_nil, app_nil_r. apply emits_for_each_nil.
  - eapply emits_for_each_cons; [emits_steps | | reflexivity].
    specialize (IH (acc ++ [sub64 (rate_in64 8532 Y (F df)) (rate_in64 8507 Y (F df))])).
    rewrite <- app_assoc in IH. exact IH.
Qed.

(** A loop runs its first part, then the rest from where the first part
    ended. *)
Lemma for_each_app {A S} (body : A → S → M S) xs ys acc σ :
  for_each (xs ++ ys) body acc σ
  = bind (for_each xs body acc) (for_each ys body) σ.
Proof.
  revert acc σ. induction xs as [|x xs IH]; intros acc σ; [reflexivity|].
  cbn [app for_each]. unfold bind in *.
  destruct (body x acc σ) as [[a|e] σ1]; [apply IH | reflexivity].
Qed.

Lemma emits_for_each_app {A S} F (body : A → S → M S) xs ys acc acc' v out1 out2 :
  emits F (for_each xs body acc) (Ok acc') out1 →
  emits F (for_each ys body acc') v out2 →
  emits F (for_each (xs ++ ys) body acc) v (out1 ++ out2).
Proof.
  intros Hxs Hys σ Hσ. rewrite for_each_app.
  by apply (emits_bind F _ _ acc' v out1 out2).
Qed.

(** The turn of the loop of lines 131-139 on a dataset that lacks a class
    raises before it prints. *)
Lemma predictive_rate_parity_turn_raises F Y df dfs acc :
  ¬ has_both_classes (F df) →
  emits F
    (for_each (df :: dfs) (λ phenotype diffs,
       fr0 ← load phenotype;
       fr0' ← load phenotype;
       class_0_prp ← true_div (len (by_gender_in 8507 Y fr0)) (len (by_gender 8507 fr0'));
       fr1 ← load phenotype;
       fr1' ← load phenotype;
       class_1_prp ← true_div (len (by_gender_in 8532 Y fr1)) (len (by_gender 8532 fr1'));
       _ ← print "Men: " class_0_prp;
       _ ← print "Women: " class_1_prp;
       _ ← print "Diff: " (sub64 class_1_prp class_0_prp);
       mret (diffs ++ [sub64 class_1_prp class_0_prp])) acc)
    (Raise ZeroDivisionError) [].
Proof.
  intros Hnot. apply emits_for_each_raise.
  eapply emits_mbind_silent; [apply emits_load | cbn beta].
  eapply emits_mbind_silent; [apply emits_load | cbn beta].
  destruct (decide (len (by_gender 8507 (F df)) = 0)) as [Hm|Hm].
  { by apply emits_mbind_raise, emits_true_div_zero. }
  eapply emits_mbind_silent; [by apply emits_true_div | cbn beta].
  eapply emits_mbind_silent; [apply emits_load | cbn beta].
  eapply emits_mbind_silent; [apply emits_load | cbn beta].
  apply emits_mbind_raise, emits_true_div_zero.
  destruct (decide (len (by_gender 8532 (F df)) = 0)) as [Hw|Hw]; [done|].
  destruct Hnot. by split.
Qed.

Lemma report_empty_consensus fr :
  report (rate_in64 8507 ∅ fr) (rate_in64 8532 ∅ fr)
  = report (Finite 0%Qc) (Finite 0%Qc).
Proof. by rewrite !rate_in64_empty. Qed.

(** X8. [calculate_predictive_rate_parity] returns exactly when every
    dataset has at least one row of each of the two classes; what it then
    returns is a list of zeros, one per dataset. Otherwise it raises
    ZeroDivisionError, its only exception. The cohort identifiers have no
    influence on the outcome. *)
Theorem predictive_rate_parity_returns_iff σ dfs ids :
  ((∃ r, outcome (calculate_predictive_rate_parity dfs ids) σ = Ok r)
   ↔ Forall (λ df, has_both_classes (frames σ df)) dfs)
  ∧ (Forall (λ df, has_both_classes (frames σ df)) dfs →
     outcome (calculate_predictive_rate_parity dfs ids) σ = Ok (replicate (length dfs) (Finite 0%Qc)))
  ∧ (∀ e, outcome (calculate_predictive_rate_parity dfs ids) σ = Raise e →
          e = ZeroDivisionError)
  ∧ (∀ ids', outcome (calculate_predictive_rate_parity dfs ids') σ
             = outcome (calculate_predictive_rate_parity dfs ids) σ).
Proof.
  split_and!.
  - rewrite (returns_outcome _ _ σ (calculate_predictive_rate_parity_returns _ _ _)).
    case_decide; split; try done; [by eexists | by intros [r ?]].
  - intros Hall.
    rewrite (returns_outcome _ _ σ (calculate_predictive_rate_parity_returns _ _ _)).
    rewrite decide_True by done. f_equal. by apply const_fmap.
  - intros e.
    rewrite (returns_outcome _ _ σ (calculate_predictive_rate_parity_returns _ _ _)).
    case_decide; by intros [= <-].
  - intros ids'.
    by rewrite !(returns_outcome _ _ σ (calculate_predictive_rate_parity_returns _ _ _)).
Qed.

Lemma predictive_rate_parity_returns_iff_witness :
  outcome (calculate_predictive_rate_parity [0; 1; 2]%nat [1; 2; 3]) Scenario.initial
  = Ok [Finite 0%Qc; Finite 0%Qc; Finite 0%Qc].
Proof.
  destruct (predictive_rate_parity_returns_iff Scenario.initial [0; 1; 2]%nat [1; 2; 3])
    as (_ & Hzeros & _).
  apply Hzeros. repeat constructor; discriminate.
Defined.

(** X9. What [calculate_predictive_rate_parity] prints: three lines with
    the value 0 for every dataset up to the first one that lacks a class.
    When such a dataset exists the call raises ZeroDivisionError after the
    lines of the datasets before it are already on the console, and prints
    nothing for that dataset or the ones after it. *)
Theorem predictive_rate_parity_console σ dfs ids :
  (Forall (λ df, has_both_classes (frames σ df)) dfs →
   stdout (final (calculate_predictive_rate_parity dfs ids) σ)
   = stdout σ ++ concat ((λ _, report (Finite 0%Qc) (Finite 0%Qc)) <$> dfs))
  ∧ (∀ pre df post,
       dfs = pre ++ df :: post →
       Forall (λ df, has_both_classes (frames σ df)) pre →
       ¬ has_both_classes (frames σ df) →
       outcome (calculate_predictive_rate_parity dfs ids) σ = Raise ZeroDivisionError
       ∧ stdout (final (calculate_predictive_rate_parity dfs ids) σ)
         = stdout σ ++ concat ((λ _, report (Finite 0%Qc) (Finite 0%Qc)) <$> pre)).
Proof.
  split.
  - intros Hall.
    assert (emits (frames σ) (calculate_predictive_rate_parity dfs ids)
              (Ok ([] ++ ((λ df, sub64 (rate_in64 8532 ∅ (frames σ df))
                                       (rate_in64 8507 ∅ (frames σ df))) <$> dfs)))
              (concat ((λ _, report (Finite 0%Qc) (Finite 0%Qc)) <$> dfs))) as H.
    { unfold calculate_predictive_rate_parity.
      eapply emits_mbind_silent; [apply build_consensus_emits|].
      pose proof (predictive_rate_parity_loop_emits (frames σ) ∅ dfs [] Hall) as Hloop.
      erewrite (list_fmap_ext _ (λ _, report (Finite 0%Qc) (Finite 0%Qc))) in Hloop; [exact Hloop|].
      intros i df _. apply report_empty_consensus. }
    by destruct (emits_run _ _ _ σ H) as (_ & -> & _).
  - intros pre df post -> Hpre Hdf.
    assert (emits (frames σ) (calculate_predictive_rate_parity (pre ++ df :: post) ids)
              (Raise ZeroDivisionError)
              (concat ((λ _, report (Finite 0%Qc) (Finite 0%Qc)) <$> pre) ++ [])) as H.
    { unfold calculate_predictive_rate_parity.
      eapply emits_mbind_silent; [apply build_consensus_emits|].
      eapply emits_for_each_app.
      - pose proof (predictive_rate_parity_loop_emits (frames σ) ∅ pre [] Hpre) as Hloop.
        erewrite (list_fmap_ext _ (λ _, report (Finite 0%Qc) (Finite 0%Qc))) in Hloop; [exact Hloop|].
        intros i df' _. apply report_empty_consensus.
      - by apply predictive_rate_parity_turn_raises. }
    rewrite app_nil_r in H.
    by destruct (emits_run _ _ _ σ H) as (-> & -> & _).
Qed.

Lemma predictive_rate_parity_console_witness :
  outcome (calculate_predictive_rate_parity [0; 3; 1]%nat [1; 2; 3]) Scenario.initial
  = Raise ZeroDivisionError
  ∧ stdout (final (calculate_predictive_rate_parity [0; 3; 1]%nat [1; 2; 3]) Scenario.initial)
    = report (Finite 0%Qc) (Finite 0%Qc).
Proof.
  destruct (predictive_rate_parity_console Scenario.initial [0; 3; 1]%nat [1; 2; 3])
    as [_ H].
  apply (H [0%nat] 3%nat [1%nat]).
  - reflexivity.
  - repeat constructor; discriminate.
  - intros [H0 _]. apply H0. reflexivity.
Defined.

(** ** The pieces of the consensus block *)

(** X10. [np.ceil(N / 2)] on the number of datasets: an even number [2m]
    of datasets gives coalitions of exactly half, [m], not [m + 1]; an
    odd number [2m + 1] gives [m + 1]. *)
Theorem majority_count_parity (m : nat) :
  majority_count (2 * m) = Z.of_nat m
  ∧ majority_count (2 * m + 1) = Z.of_nat m + 1.
Proof. rewrite !majority_count_half. split; Z.div_mod_to_equations; lia. Qed.

Lemma combinations_sublist {A} (l : list A) r ele :
  ele ∈ combinations l r → ele `sublist_of` l.
Proof.
  revert r ele. induction l as [|y l IH]; intros [|r] ele Hele; simpl in Hele.
  - apply list_elem_of_singleton in Hele as ->. constructor.
  - by apply elem_of_nil in Hele.
  - apply list_elem_of_singleton in Hele as ->. apply sublist_nil_l.
  - apply elem_of_app in Hele as [Hele|Hele].
    + apply list_elem_of_fmap in Hele as (ele' & -> & Hele').
      apply sublist_skip. eauto.
    + apply sublist_cons. eauto.
Qed.

Lemma sublist_combinations {A} (l ele : list A) :
  ele `sublist_of` l → ele ∈ combinations l (length ele).
Proof.
  induction 1 as [|x l1 l2 Hsub IH|x l1 l2 Hsub IH].
  - simpl. left.
  - simpl. apply elem_of_app. left. apply list_elem_of_fmap. eauto.
  - destruct l1 as [|y l1]; simpl; [left|].
    apply elem_of_app. right. exact IH.
Qed.

(** X11. The loop of line 68 visits exactly the sub-sequences of [inds]
    that have the requested length: each coalition keeps the order of
    [inds], takes no position twice, and every such choice is visited.
    There is at least one coalition exactly when the requested length does
    not exceed the number of identifiers, and distinct identifiers give
    coalitions without repetition. *)
Theorem combinations_spec {A} (l : list A) (r : nat) :
  (∀ ele, ele ∈ combinations l r ↔ ele `sublist_of` l ∧ length ele = r)
  ∧ (combinations l r ≠ [] ↔ (r ≤ length l)%nat)
  ∧ (NoDup l → ∀ ele, ele ∈ combinations l r → NoDup ele).
Proof.
  assert (∀ ele, ele ∈ combinations l r ↔ ele `sublist_of` l ∧ length ele = r) as Hspec.
  { intros ele. split.
    - intros H. split; [by eapply combinations_sublist | by eapply combinations_length].
    - intros [Hsub <-]. by apply sublist_combinations. }
  split_and!; [exact Hspec | |].
  - split.
    + intros Hne. destruct (combinations l r) as [|ele combos] eqn:E; [done|].
      assert (ele ∈ ele :: combos) as [Hsub <-]%Hspec by left.
      by apply sublist_length.
    + intros Hr Hnil.
      assert (take r l ∈ combinations l r) as Hin.
      { apply Hspec. split; [apply sublist_take|]. rewrite length_take. lia. }
      rewrite Hnil in Hin. by apply elem_of_nil in Hin.
  - intros Hnodup ele [Hsub _]%Hspec. by eapply sublist_NoDup.
Qed.

Lemma combinations_spec_witness :
  [1; 3] ∈ combinations [1; 2; 3] 2 ∧ combinations [1; 2; 3] 2 ≠ [] ∧ NoDup [1; 3].
Proof.
  destruct (combinations_spec [1; 2; 3] 2) as (Hspec & Hne & Hnodup).
  assert ([1; 3] ∈ combinations [1; 2; 3] 2) as Hin.
  { apply Hspec. split; [|reflexivity].
    apply sublist_skip, sublist_cons, sublist_skip, sublist_nil. }
  split_and!; [exact Hin | apply Hne; simpl; lia |].
  apply (Hnodup ltac:(by apply (bool_decide_unpack _); vm_compute) _ Hin).
Defined.

Lemma collect_fold_notin F pairs acc id :
  id ∉ pairs.*2 → (foldl (collect_step F) acc pairs).1 !! id = acc.1 !! id.
Proof.
  revert acc. induction pairs as [|[df id'] pairs IH]; intros acc Hid; [done|].
  simpl in *. apply not_elem_of_cons in Hid as [Hne Hid].
  rewrite IH by done. simpl. by rewrite lookup_insert_ne.
Qed.

Lemma collect_fold_keys_inv F pairs acc :
  (∀ id, is_Some (acc.1 !! id) → id ∈ acc.2) →
  ∀ id, is_Some ((foldl (collect_step F) acc pairs).1 !! id) →
        id ∈ (foldl (collect_step F) acc pairs).2.
Proof.
  revert acc. induction pairs as [|[df id'] pairs IH]; intros acc Hacc; simpl; [done|].
  apply IH. simpl. intros id Hid. apply elem_of_app.
  destruct (decide (id' = id)) as [->|Hne].
  - right. left.
  - rewrite lookup_insert_ne in Hid by done. auto.
Qed.

(** X12. After the loop of lines 62-64, [inds] lists the identifiers of
    the pairs in order, the keys of [all_sets] are exactly the identifiers
    in [inds], and [all_sets[id]] is the subject set of the last dataset
    paired with [id]: when an identifier occurs twice, the later dataset
    overwrites the earlier one. *)
Theorem collect_subject_sets_last_wins σ dfs ids pre df id post :
  zip dfs ids = pre ++ (df, id) :: post → id ∉ post.*2 →
  ∃ all_sets inds,
    outcome (collect_subject_sets dfs ids) σ = Ok (all_sets, inds)
    ∧ inds = (zip dfs ids).*2
    ∧ (∀ id', id' ∈ inds ↔ is_Some (all_sets !! id'))
    ∧ all_sets !! id = Some (subject_set (frames σ df) id).
Proof.
  intros Hzip Hpost.
  exists (foldl (collect_step (frames σ)) (∅, []) (zip dfs ids)).1,
         (foldl (collect_step (frames σ)) (∅, []) (zip dfs ids)).2.
  split_and!.
  - rewrite (returns_outcome _ _ σ (collect_subject_sets_returns _ _ _)).
    by destruct (foldl _ _ _).
  - by rewrite collect_fold_inds.
  - intros id'. split.
    + apply collect_fold_keys. intros ? H. by apply elem_of_nil in H.
    + apply collect_fold_keys_inv. simpl. intros ? [? H]. by rewrite lookup_empty in H.
  - rewrite Hzip, foldl_app. simpl. rewrite collect_fold_notin by done.
    simpl. apply lookup_insert_eq.
Qed.

Lemma collect_subject_sets_last_wins_witness :
  ∃ all_sets inds,
    outcome (collect_subject_sets [0; 1]%nat [2; 2]) Scenario.initial = Ok (all_sets, inds)
    ∧ inds = [2; 2]
    ∧ (∀ id', id' ∈ inds ↔ is_Some (all_sets !! id'))
    ∧ all_sets !! 2 = Some (subject_set Scenario.cohort_2 2).
Proof.
  apply (collect_subject_sets_last_wins Scenario.initial [0; 1]%nat [2; 2]
           [(0%nat, 2)] 1%nat 2 []).
  - reflexivity.
  - apply not_elem_of_nil.
Defined.

(** ** drop_duplicates (line 76) *)

Lemma drop_duplicates_elem fr r : r ∈ drop_duplicates fr ↔ r ∈ fr.
Proof.
  induction fr as [|r' fr IH]; [done|]. simpl.
  rewrite !elem_of_cons, list_elem_of_filter, IH.
  destruct (decide (r = r')); tauto.
Qed.

Lemma drop_duplicates_snoc fr r :
  drop_duplicates (fr ++ [r])
  = if decide (r ∈ fr) then drop_duplicates fr else drop_duplicates fr ++ [r].
Proof.
  induction fr as [|x fr IH]; [done|].
  cbn [app drop_duplicates]. rewrite IH.
  destruct (decide (r ∈ fr)) as [Hin|Hnin].
  - rewrite decide_True by (by right). done.
  - rewrite filter_app. destruct (decide (r = x)) as [->|Hne].
    + rewrite decide_True by left.
      rewrite (filter_cons_False _ x []) by (intros H; by apply H).
      by rewrite filter_nil, app_nil_r.
    + rewrite decide_False by (intros [?|?]%elem_of_cons; done).
      by rewrite (filter_cons_True _ r []).
Qed.

(** X14. [drop_duplicates] keeps the first occurrence of every row, in the
    order of the input: appending a row that is already present changes
    nothing, appending a new row appends it. Hence the result has no
    duplicate row, holds the same rows as the input, is a sub-sequence of
    it, and a DataFrame without duplicates is left as it is. *)
Theorem drop_duplicates_spec fr :
  drop_duplicates [] = []
  ∧ (∀ r, drop_duplicates (fr ++ [r])
          = if decide (r ∈ fr) then drop_duplicates fr else drop_duplicates fr ++ [r])
  ∧ NoDup (drop_duplicates fr)
  ∧ (∀ r, r ∈ drop_duplicates fr ↔ r ∈ fr)
  ∧ drop_duplicates fr `sublist_of` fr
  ∧ (NoDup fr → drop_duplicates fr = fr).
Proof.
  split_and!.
  - done.
  - intros r. apply drop_duplicates_snoc.
  - induction fr as [|r fr IH]; simpl; [constructor|].
    constructor; [|by apply NoDup_filter].
    intros [Hne _]%list_elem_of_filter. done.
  - intros r. apply drop_duplicates_elem.
  - induction fr as [|r fr IH]; simpl; [constructor|].
    apply sublist_skip. etrans; [apply sublist_filter|done].
  - induction 1 as [|r fr Hr Hnd IH]; simpl; [done|].
    rewrite IH. f_equal. clear IH Hnd.
    induction fr as [|r' fr IH]; [done|].
    apply not_elem_of_cons in Hr as [Hne Hr].
    rewrite filter_cons_True by done. f_equal. by apply IH.
Qed.

Lemma drop_duplicates_spec_witness :
  drop_duplicates Scenario.cohort_1 = Scenario.cohort_1.
Proof.
  apply (drop_duplicates_spec Scenario.cohort_1).
  by apply (bool_decide_unpack _); vm_compute.
Defined.
